(** * Hierarchical clustering of term vectors (package [cluster])

    A shallow embedding of [cluster.go]: the term vectors ([Vec], [NewVec],
    [Renorm], [Add], [Dot], [Sim]), the merge engine ([Cluster]) and the
    dendrogram interpreter ([Interpret]), followed by the properties of the
    package.

    Conventions of the embedding.
    - A Go [int] is a 64-bit two's complement integer: a [Z] kept in range by
      [wrap] after every arithmetic operation.
    - A Go [float64] is an IEEE 754 binary64 number: the kernel's primitive
      [float], whose operations round to nearest even as the Go operators do.
    - A run-time panic (index out of range, negative capacity, assignment
      into a nil map) is the result [None].
    - A Go map is a [gmap]; the nil map is [None].  Go leaves the order in
      which [range] visits a map unspecified; the embedding visits the keys
      in the order of [map_to_list]. *)

From Stdlib Require Import ZArith Lia Floats.
From stdpp Require Import gmap strings list sorting.

Open Scope Z_scope.

(** ** Go integers *)

Definition min_int : Z := - 2 ^ 63.
Definition max_int : Z := 2 ^ 63 - 1.

Definition in_int (z : Z) : Prop := min_int <= z <= max_int.

Definition wrap (z : Z) : Z := (z + 2 ^ 63) mod 2 ^ 64 - 2 ^ 63.

Definition int_add (a b : Z) : Z := wrap (a + b).
Definition int_mul (a b : Z) : Z := wrap (a * b).

(** [len] of a slice, as a Go [int]. *)
Definition len {A} (l : list A) : Z := Z.of_nat (length l).

(** ** Go float64 *)

(** The conversion [float64(z)] of an [int]. *)
Definition float64_of_int (z : Z) : float :=
  if z =? min_int then PrimFloat.opp 0x1p63%float
  else if z <? 0 then PrimFloat.opp (PrimFloat.of_uint63 (Uint63.of_Z (- z)))
  else PrimFloat.of_uint63 (Uint63.of_Z z).

(** ** Panics *)

(** [foldlM f b l] runs the loop body [f] over [l] from the state [b] and
    stops at the first panic. *)
Fixpoint foldlM {A B} (f : B -> A -> option B) (b : B) (l : list A) : option B :=
  match l with
  | [] => Some b
  | x :: l => b' ← f b x; foldlM f b' l
  end.

(** [s[i]]: bounds-checked read of a slice. *)
Definition index {A} (s : list A) (i : Z) : option A :=
  if i <? 0 then None else s !! Z.to_nat i.

(** [s[i] = x]: bounds-checked write of a slice. *)
Definition store {A} (s : list A) (i : Z) (x : A) : option (list A) :=
  if (0 <=? i) && (i <? len s) then Some (<[Z.to_nat i := x]> s) else None.

(** ** Go maps from strings to ints *)

Abbreviation gomap := (option (gmap string Z)).

(** [m[key]]: reading a missing key, or any key of the nil map, gives 0. *)
Definition map_get (m : gomap) (key : string) : Z :=
  match m with
  | Some g => default 0 (g !! key)
  | None => 0
  end.

(** [m[key] = v]: panics on the nil map. *)
Definition map_set (m : gomap) (key : string) (v : Z) : option gomap :=
  match m with
  | Some g => Some (Some (<[key := v]> g))
  | None => None
  end.

(** [range m]: the entries visited by a loop over the map. *)
Definition map_range (m : gomap) : list (string * Z) :=
  match m with
  | Some g => map_to_list g
  | None => []
  end.

(** [len(m)]. *)
Definition map_len (m : gomap) : Z :=
  match m with
  | Some g => Z.of_nat (size g)
  | None => 0
  end.

(** ** Term vectors *)

Record Vec := mkVec { M : gomap; Length : float }.

(** [func (a *Vec) Renorm()]. *)
Definition Renorm (a : Vec) : Vec :=
  let sum :=
    foldl (fun sum kv => PrimFloat.add sum (float64_of_int (int_mul kv.2 kv.2)))
          0%float (map_range (M a)) in
  {| M := M a; Length := PrimFloat.sqrt sum |}.

(** [func NewVec(list []string) (v Vec)]. *)
Definition NewVec (list : list string) : Vec :=
  let m :=
    foldl (fun m key => <[key := int_add (default 0 (m !! key)) 1]> m)
          (∅ : gmap string Z) list in
  Renorm {| M := Some m; Length := 0%float |}.

(** [func (a *Vec) Add(b Vec)]: the result is the new value of [*a]. *)
Definition Add (a b : Vec) : option Vec :=
  m ← foldlM (fun m kv =>
                map_set m kv.1 (int_add (map_get m kv.1) (map_get (M b) kv.1)))
             (M a) (map_range (M b));
  Some (Renorm {| M := m; Length := Length a |}).

(** [func (a Vec) Dot(b Vec) (sum float64)]. *)
Definition Dot (a b : Vec) : float :=
  let '(a, b) := if map_len (M b) <? map_len (M a) then (b, a) else (a, b) in
  foldl (fun sum kv =>
           PrimFloat.add sum
             (float64_of_int (int_mul (map_get (M a) kv.1) (map_get (M b) kv.1))))
        0%float (map_range (M a)).

(** [func (a Vec) Sim(b Vec) float64]. *)
Definition Sim (a b : Vec) : float :=
  if PrimFloat.eqb (Length a) 0%float || PrimFloat.eqb (Length b) 0%float
  then 0%float
  else PrimFloat.div (Dot a b) (PrimFloat.mul (Length a) (Length b)).

(** ** The similarity matrix and the merges *)

Record simEntry := mkSim { sim_i : Z; sim_j : Z; sim_val : float }.

Record Merge := mkMerge { Left : Z; Right : Z }.

(** [make([]T, length, capacity)]: a slice of [length] zero values; panics
    when [length] is negative or exceeds [capacity].  The lengths and
    indices of slices are bounded by the memory of the machine, far below
    [max_int], so the arithmetic on them is written without [wrap]. *)
Definition make {A} (zero : A) (length capacity : Z) : option (list A) :=
  if (0 <=? length) && (length <=? capacity)
  then Some (replicate (Z.to_nat length) zero)
  else None.

(** [s[:k]] for a [k] that does not exceed [len(s)]; panics when [k] is
    negative.  (Go also accepts a [k] between [len(s)] and [cap(s)];
    [Cluster] only ever shrinks its slice.) *)
Definition reslice {A} (s : list A) (k : Z) : option (list A) :=
  if (0 <=? k) && (k <=? len s) then Some (take (Z.to_nat k) s) else None.

(** The slice [sims] as the driver and the workers share it: [p_n] is the
    driver's cursor [n], and [p_queue] holds the slots sent on [queue] that
    the [WaitGroup] still counts. *)
Record pool := mkPool { p_sims : list simEntry; p_n : Z; p_queue : list Z }.

(** The body of a worker goroutine for the task [n]:
    [sims[n].val = vecs[sims[n].i].Sim(vecs[sims[n].j])]. *)
Definition worker (vecs : list Vec) (sims : list simEntry) (n : Z)
  : option (list simEntry) :=
  e ← index sims n;
  a ← index vecs (sim_i e);
  b ← index vecs (sim_j e);
  store sims n {| sim_i := sim_i e; sim_j := sim_j e; sim_val := Sim a b |}.

(** [wg.Wait()]: the barrier.  The tasks of one phase write slots that the
    driver neither reads nor writes between their dispatch and the barrier,
    and no vector changes in between, so the embedding runs them when the
    driver reaches the barrier, in the order of their dispatch. *)
Definition wg_Wait (vecs : list Vec) (sims : list simEntry) (queue : list Z)
  : option (list simEntry) :=
  foldlM (worker vecs) sims queue.

(** The body of the inner loop that populates the similarity matrix. *)
Definition populate (i : Z) (p : pool) (j : Z) : option pool :=
  sims ← store (p_sims p) (p_n p) {| sim_i := i; sim_j := j; sim_val := 0%float |};
  Some {| p_sims := sims; p_n := p_n p + 1; p_queue := p_queue p ++ [p_n p] |}.

(** The scan for the most similar pair, from [maxsim := sims[0]]. *)
Definition find_max (maxsim : simEntry) (sims : list simEntry) : simEntry :=
  foldl (fun maxsim sim =>
           if PrimFloat.ltb (sim_val maxsim) (sim_val sim) then sim else maxsim)
        maxsim sims.

(** The body of the loop that updates the similarity matrix; [k] is the
    position of [sim] in the [range] over [sims]. *)
Definition update (maxsim : simEntry) (p : pool) (k : Z) : option pool :=
  sim ← index (p_sims p) k;
  if (sim_i sim =? sim_j maxsim) || (sim_j sim =? sim_j maxsim) then Some p
  else if (sim_i sim =? sim_i maxsim) || (sim_j sim =? sim_i maxsim) then
    sims ← store (p_sims p) (p_n p)
             {| sim_i := sim_i sim; sim_j := sim_j sim; sim_val := 0%float |};
    Some {| p_sims := sims; p_n := p_n p + 1; p_queue := p_queue p ++ [p_n p] |}
  else
    sims ← store (p_sims p) (p_n p) sim;
    Some {| p_sims := sims; p_n := p_n p + 1; p_queue := p_queue p |}.

(** The variables of [Cluster] that its rounds change. *)
Record state := mkState {
  c_vecs : list Vec;
  c_sims : list simEntry;
  c_merges : list Merge
}.

(** The body of the loop over the rounds. *)
Definition round (st : state) (round : Z) : option state :=
  maxsim ← index (c_sims st) 0;
  let maxsim := find_max maxsim (c_sims st) in
  a ← index (c_vecs st) (sim_i maxsim);
  b ← index (c_vecs st) (sim_j maxsim);
  a ← Add a b;
  vecs ← store (c_vecs st) (sim_i maxsim) a;
  p ← foldlM (update maxsim) (mkPool (c_sims st) 0 []) (seqZ 0 (len (c_sims st)));
  sims ← wg_Wait vecs (p_sims p) (p_queue p);
  sims ← reslice sims (len sims - len vecs + round + 1);
  Some {| c_vecs := vecs;
          c_sims := sims;
          c_merges := c_merges st ++ [mkMerge (sim_i maxsim) (sim_j maxsim)] |}.

(** The state of [Cluster] when it enters the loop over the rounds. *)
Definition init (vecs : list Vec) : option state :=
  sims ← make (mkSim 0 0 0%float)
            (((len vecs - 1) * len vecs) `quot` 2)
            (((len vecs - 1) * len vecs) `quot` 2);
  p ← foldlM (fun p i => foldlM (populate i) p (seqZ 0 i))
        (mkPool sims 0 []) (seqZ 0 (len vecs));
  sims ← wg_Wait vecs (p_sims p) (p_queue p);
  merges ← make (mkMerge 0 0) 0 (len vecs - 1);
  Some {| c_vecs := vecs; c_sims := sims; c_merges := merges |}.

(** The state of [Cluster] after its first [r] rounds. *)
Definition boundary (vecs : list Vec) (r : Z) : option state :=
  st ← init vecs; foldlM round st (seqZ 0 r).

(** [func Cluster(vecs []Vec) []Merge]. *)
Definition Cluster (vecs : list Vec) : option (list Merge) :=
  st ← boundary vecs (len vecs - 1); Some (c_merges st).

(** ** The dendrogram interpreter *)

(** The body of the loop of [Interpret]; [total] is [len(merges)].  Both
    [clusters[merge.Left]] and [clusters[merge.Right]] are read in every
    iteration (by the test or by the [append]), so they are read first. *)
Definition interpret_step (total : Z) (st : list (list Z) * list (list Z))
    (merge : Merge) : option (list (list Z) * list (list Z)) :=
  let '(clusters, flagged) := st in
  l ← index clusters (Left merge);
  r ← index clusters (Right merge);
  let flagged :=
    if (3 <? len l) && (3 <? len r) then
      let flagged := if len l <? total `quot` 2 then flagged ++ [l] else flagged in
      if len r <? total `quot` 2 then flagged ++ [r] else flagged
    else flagged in
  clusters ← store clusters (Left merge) (l ++ r);
  Some (clusters, flagged).

(** [func Interpret(merges []Merge) [][]int]. *)
Definition Interpret (merges : list Merge) : option (list (list Z)) :=
  let clusters := (fun i => [i]) <$> seqZ 0 (len merges + 1) in
  st ← foldlM (interpret_step (len merges)) (clusters, []) merges;
  Some st.2.

(** * The command [lj_cluster]

    The acquisition of the friends data and the pipeline of [main], from the
    first call of [ljGet] on ([lj_cluster/main.go], the version in which
    [ljGet] returns an error).  The file system and the network are a state
    that is passed along: [files] are the files of the working directory
    that can be read, [web] is what [http.Get] followed by [ioutil.ReadAll]
    yields for a URL ([None] when [http.Get] fails), and [can_write] tells
    the names under which [ioutil.WriteFile] succeeds. *)

(** The first byte of a string literal. *)
Definition byte_of (s : string) : Ascii.ascii :=
  match s with
  | String c _ => c
  | EmptyString => Ascii.zero
  end.

Definition newline : Ascii.ascii := Ascii.ascii_of_nat 10.

(** [strings.Split(s, "\n")]. *)
Fixpoint split_lines (s : string) : list string :=
  match s with
  | EmptyString => [EmptyString]
  | String c s' =>
      if Ascii.eqb c newline then EmptyString :: split_lines s'
      else match split_lines s' with
           | line :: lines => String c line :: lines
           | [] => [String c EmptyString]
           end
  end.

(** The body of the loop of [ljGet] over the lines: a line longer than two
    bytes that starts with [direction] contributes [line[2:]]. *)
Definition ljGet_line (direction : Ascii.ascii) (line : string) : option string :=
  if (2 <? String.length line)%nat
     && bool_decide (String.get 0 line = Some direction)
  then Some (String.substring 2 (String.length line - 2) line)
  else None.

(** The [result] of [ljGet] for the [body] it has read. *)
Definition ljGet_lines (body : string) (direction : Ascii.ascii) : list string :=
  omap (ljGet_line direction) (split_lines body).

Inductive error := ErrGet | ErrWrite | ErrNoFriends.

Record world := mkWorld {
  files : gmap string string;
  web : string -> option string;
  can_write : string -> bool
}.

Definition ljGetUrl : string := "http://www.livejournal.com/misc/fdata.bml?user=".

(** What [ljGet] returns for the [body] it has read: the error of an
    invalid user when no line qualifies. *)
Definition ljGet_result (body : string) (direction : Ascii.ascii)
  : list string + error :=
  let result := ljGet_lines body direction in
  if bool_decide (len result = 0) then inr ErrNoFriends else inl result.

(** [func ljGet(user string, direction uint8) ([]string, error)]. *)
Definition ljGet (w : world) (user : string) (direction : Ascii.ascii)
  : world * (list string + error) :=
  match files w !! user with
  | Some body => (w, ljGet_result body direction)
  | None =>
      match web w (ljGetUrl +:+ user) with
      | None => (w, inr ErrGet)
      | Some body =>
          if can_write w user
          then ({| files := <[user := body]> (files w);
                   web := web w; can_write := can_write w |},
                ljGet_result body direction)
          else (w, inr ErrWrite)
      end
  end.

(** How a run of [main] ends: [log.Fatal], a run-time panic, or the text
    printed on the standard output. *)
Inductive outcome := Fatal (e : error) | Panic | Printed (out : string).

(** The loop of [main] over the friends: the names and the vectors of the
    friends other than [inituser]. *)
Fixpoint collect (w : world) (inituser : string) (fdata : list string)
    (names : list string) (vecs : list Vec)
  : world * (list string * list Vec + error) :=
  match fdata with
  | [] => (w, inl (names, vecs))
  | user :: fdata =>
      if bool_decide (user ≠ inituser) then
        match ljGet w user (byte_of "<") with
        | (w, inl friends) =>
            collect w inituser fdata (names ++ [user]) (vecs ++ [NewVec friends])
        | (w, inr e) => (w, inr e)
        end
      else collect w inituser fdata names vecs
  end.

(** The inner loop of the printing: the names of a cluster, with a space
    after each one but the last. *)
Fixpoint print_users (names : list string) (cluster : list Z) : option string :=
  match cluster with
  | [] => Some EmptyString
  | user :: cluster =>
      name ← index names user;
      rest ← print_users names cluster;
      Some (name +:+ (if bool_decide (cluster = []) then EmptyString else " ")
            +:+ rest)
  end.

(** The loop of the printing over the clusters. *)
Fixpoint print_clusters (names : list string) (clusters : list (list Z))
  : option string :=
  match clusters with
  | [] => Some EmptyString
  | cluster :: clusters =>
      users ← print_users names cluster;
      rest ← print_clusters names clusters;
      Some ("[" +:+ users +:+ "]" +:+ String newline (String newline EmptyString)
            +:+ rest)
  end.

(** [func main()], from [fdata, err := ljGet(inituser, '>')] on. *)
Definition main (w : world) (inituser : string) : world * outcome :=
  match ljGet w inituser (byte_of ">") with
  | (w, inr e) => (w, Fatal e)
  | (w, inl fdata) =>
      match collect w inituser fdata [] [] with
      | (w, inr e) => (w, Fatal e)
      | (w, inl (names, vecs)) =>
          (w, match Cluster vecs with
              | None => Panic
              | Some merges =>
                  match Interpret merges with
                  | None => Panic
                  | Some clusters =>
                      match print_clusters names clusters with
                      | None => Panic
                      | Some out => Printed out
                      end
                  end
              end)
      end
  end.

(** ** Notions used to state the properties *)

(** The pair of cluster indices of an entry. *)
Definition pair_of (e : simEntry) : Z * Z := (sim_i e, sim_j e).

(** [refers x e]: the entry [e] refers to the cluster [x]. *)
Definition refers (x : Z) (e : simEntry) : bool :=
  (sim_i e =? x) || (sim_j e =? x).

(** The pairs [(x, y)] with [y] before [x], for [x] in [rest] and [y] in
    [seen ++ rest], in the order in which the nested loops of [Cluster]
    enumerate them. *)
Fixpoint pairs_from (seen rest : list Z) : list (Z * Z) :=
  match rest with
  | [] => []
  | x :: rest => (pair x <$> seen) ++ pairs_from (seen ++ [x]) rest
  end.

Definition all_pairs (L : list Z) : list (Z * Z) := pairs_from [] L.

(** The similarity of the clusters [i] and [j] for the vectors [vecs]. *)
Definition sim_of (vecs : list Vec) (i j : Z) : float :=
  match index vecs i, index vecs j with
  | Some a, Some b => Sim a b
  | _, _ => 0%float
  end.

Definition recompute (vecs : list Vec) (e : simEntry) : simEntry :=
  {| sim_i := sim_i e; sim_j := sim_j e; sim_val := sim_of vecs (sim_i e) (sim_j e) |}.

(** The per-round update in the words of the specification: the entries that
    refer to the absorbed cluster are dropped, those that refer to the
    survivor are recomputed, the others are carried over. *)
Definition update_spec (vecs : list Vec) (maxsim : simEntry)
    (sims : list simEntry) : list simEntry :=
  (fun e => if refers (sim_i maxsim) e then recompute vecs e else e)
    <$> filter (fun e => refers (sim_j maxsim) e = false) sims.

(** The clusters still active after [merges], out of [n]. *)
Definition active (n : Z) (merges : list Merge) : list Z :=
  filter (fun x => x ∉ Right <$> merges) (seqZ 0 n).

(** A vector whose map is allocated, as [NewVec] returns it. *)
Definition allocated (v : Vec) : Prop := is_Some (M v).

(** An entry as the driver writes it, before a worker fills in its value. *)
Definition zero_entry (i j : Z) : simEntry :=
  {| sim_i := i; sim_j := j; sim_val := 0%float |}.

(** The entries that the nested loops write for the rows [rs]. *)
Definition rows (rs : list Z) : list simEntry :=
  rs ≫= fun i => zero_entry i <$> seqZ 0 i.

(** An entry whose two indices are indices of [vecs]. *)
Definition valid (vecs : list Vec) (e : simEntry) : Prop :=
  (0 <= sim_i e < len vecs) /\ (0 <= sim_j e < len vecs).

(** The effect of the barrier on [sims] when the tasks of [queue] were
    dispatched: the entries in the slots of [queue] are recomputed. *)
Definition waited (vecs : list Vec) (queue : list Z) (sims : list simEntry)
  : list simEntry :=
  imap (fun k e => if decide (Z.of_nat k ∈ queue) then recompute vecs e else e) sims.

(** The entries that the update loop has written when it has read [sims]:
    those that refer to the absorbed cluster are skipped, and those that
    refer to the survivor are written with the value 0 and dispatched. *)
Definition reset (maxsim e : simEntry) : simEntry :=
  if refers (sim_i maxsim) e then zero_entry (sim_i e) (sim_j e) else e.

Definition kept (maxsim : simEntry) (sims : list simEntry) : list simEntry :=
  reset maxsim <$> filter (fun e => refers (sim_j maxsim) e = false) sims.

(** The slots of the entries of [out] that refer to [x], when [out] starts
    at the slot [n]: the tasks that the update loop dispatches. *)
Fixpoint dispatched (x : Z) (n : Z) (out : list simEntry) : list Z :=
  match out with
  | [] => []
  | e :: out => (if refers x e then [n] else []) ++ dispatched x (n + 1) out
  end.

(** The entry that a round selects. *)
Definition select (sims : list simEntry) : option simEntry :=
  maxsim ← index sims 0; Some (find_max maxsim sims).

(** The state after a round that selects [maxsim], where [a] is the sum
    [Add] gives for the survivor. *)
Definition next (st : state) (maxsim : simEntry) (a : Vec) : state :=
  let vecs := <[Z.to_nat (sim_i maxsim) := a]> (c_vecs st) in
  {| c_vecs := vecs;
     c_sims := update_spec vecs maxsim (c_sims st);
     c_merges := c_merges st ++ [mkMerge (sim_i maxsim) (sim_j maxsim)] |}.

(** What holds of the state of [Cluster] on [n] vectors after [r] rounds. *)
Record invariant (n r : Z) (st : state) : Prop := mkInvariant {
  inv_vecs : len (c_vecs st) = n;
  inv_sims : pair_of <$> c_sims st = all_pairs (active n (c_merges st));
  inv_active : len (active n (c_merges st)) = n - r;
  inv_merges : len (c_merges st) = r;
  inv_perm : active n (c_merges st) ++ (Right <$> c_merges st) ≡ₚ seqZ 0 n;
  inv_order : Forall (fun m => 0 <= Right m < Left m /\ Left m < n) (c_merges st)
}.

(** [joins x y e]: the entry [e] is the entry of the unordered pair of the
    clusters [x] and [y]. *)
Definition joins (x y : Z) (e : simEntry) : Prop :=
  pair_of e = (x, y) \/ pair_of e = (y, x).

(** [sims] holds exactly one entry per unordered pair of clusters of [L],
    and nothing else. *)
Definition one_entry_per_pair (L : list Z) (sims : list simEntry) : Prop :=
  (forall e, e ∈ sims -> sim_i e ∈ L /\ sim_j e ∈ L /\ sim_i e ≠ sim_j e) /\
  (forall x y, x ∈ L -> y ∈ L -> x ≠ y ->
     exists k : nat,
       (exists e, sims !! k = Some e /\ joins x y e) /\
       (forall k' : nat, (exists e, sims !! k' = Some e /\ joins x y e) -> k' = k)).





(** ** The interpreter in the words of the specification *)

(** The member list of every index, at first the singleton [[i]]. *)
Definition singleton_members : Z -> list Z := fun i => [i].

(** Left absorbs right: the members of [Right merge] are appended to those
    of [Left merge]. *)
Definition absorb (members : Z -> list Z) (merge : Merge) : Z -> list Z :=
  fun i =>
    if decide (i = Left merge)
    then members (Left merge) ++ members (Right merge)
    else members i.

(** The sides that one merge flags: none unless both sides have more than
    three members; then the left side, if it has fewer than [total / 2]
    members, and then the right side likewise. *)
Definition flags (total : Z) (members : Z -> list Z) (merge : Merge)
  : list (list Z) :=
  let l := members (Left merge) in
  let r := members (Right merge) in
  if decide (3 < len l /\ 3 < len r) then
    (if decide (len l < total `quot` 2) then [l] else []) ++
    (if decide (len r < total `quot` 2) then [r] else [])
  else [].

Fixpoint flagged_from (total : Z) (members : Z -> list Z) (merges : list Merge)
  : list (list Z) :=
  match merges with
  | [] => []
  | merge :: merges =>
      flags total members merge ++ flagged_from total (absorb members merge) merges
  end.

Definition Interpret_spec (merges : list Merge) : list (list Z) :=
  flagged_from (len merges) singleton_members merges.

(** The members of every index when the first [k] merges are done. *)
Definition members_before (merges : list Merge) (k : nat) : Z -> list Z :=
  foldl absorb singleton_members (take k merges).

(** A merge between two of the [n] indices. *)
Definition in_range (n : Z) (merge : Merge) : Prop :=
  (0 <= Left merge < n) /\ (0 <= Right merge < n).

(** A merge sequence over the [len merges + 1] indices it is a dendrogram
    of. *)
Definition wf_merges (merges : list Merge) : Prop :=
  Forall (in_range (len merges + 1)) merges.

#[local] Instance in_range_dec n merge : Decision (in_range n merge).
Proof. unfold in_range. apply _. Defined.

#[local] Instance wf_merges_dec merges : Decision (wf_merges merges).
Proof. unfold wf_merges. apply _. Defined.

(** ** The norm of the specification *)


(** The entry of [key] in a map, if it has one. *)
Definition map_lookup (m : gomap) (key : string) : option Z :=
  g ← m; g !! key.



(** The number of times [key] occurs in [list]. *)
Definition occurrences (key : string) (list : list string) : Z :=
  len (filter (fun x => x = key) list).

(** ** Notions for the further properties *)

(** [fresh merges]: every merge joins two clusters that no earlier merge
    has absorbed. *)
Definition fresh (merges : list Merge) : Prop :=
  forall (k : nat) m, merges !! k = Some m ->
    (Left m ∉ (Right <$> take k merges)) /\ (Right m ∉ (Right <$> take k merges)).





(** The lexicographic order of the pairs of indices. *)
Definition lex_lt (p q : Z * Z) : Prop :=
  p.1 < q.1 \/ (p.1 = q.1 /\ p.2 < q.2).


(** The member lists of the clusters outside [retired] are duplicate-free
    and pairwise disjoint. *)
Definition partitioned (retired : list Z) (members : Z -> list Z) : Prop :=
  forall x, x ∉ retired ->
    NoDup (members x) /\
    forall y, y ∉ retired -> x ≠ y -> forall z, z ∈ members x -> z ∉ members y.

(** An input on which [Interpret] flags two clusters: four vectors of the
    token x, four of the token y, and three vectors of tokens of their own. *)
Definition two_groups : list Vec :=
  NewVec <$> [["x"]; ["x"]; ["x"]; ["x"]; ["y"]; ["y"]; ["y"]; ["y"];
              ["p"]; ["q"]; ["r"]].

(** [has_byte c s]: the byte [c] occurs in [s]. *)
Fixpoint has_byte (c : Ascii.ascii) (s : string) : bool :=
  match s with
  | EmptyString => false
  | String c' s => Ascii.eqb c' c || has_byte c s
  end.

(** A line of friends data: a direction byte, a space, a user name. *)
Definition fdata_line (entry : Ascii.ascii * string) : string :=
  String entry.1 (String (byte_of " ") entry.2).

(** A file of friends data: its lines, each ended by a newline. *)
Definition fdata_body (entries : list (Ascii.ascii * string)) : string :=
  foldr (fun entry body => fdata_line entry +:+ String newline body)
        EmptyString entries.

(** A direction and a user name that a line of friends data can carry. *)
Definition fdata_entry (entry : Ascii.ascii * string) : Prop :=
  entry.1 ≠ newline /\ entry.2 ≠ EmptyString /\ has_byte newline entry.2 = false.

(** A working directory with the friends data of two users, and no network:
    al lists bob as a friend, and bob is listed by al. *)
Definition two_users : world :=
  {| files := {[ "al"%string := fdata_body [(byte_of ">", "bob"%string)];
                 "bob"%string := fdata_body [(byte_of "<", "al"%string)] ]};
     web := fun _ => None;
     can_write := fun _ => true |}.

(** * Properties *)

(** ** Slices and loops *)

Section slices.
Context {A : Type}.
Implicit Types (s : list A) (x : A).

Lemma index_of_nat s (k : nat) : index s (Z.of_nat k) = s !! k.
Proof.
  unfold index. destruct (Z.ltb_spec (Z.of_nat k) 0); [lia|].
  by rewrite Nat2Z.id.
Qed.

Lemma index_Some s i x :
  index s i = Some x <-> 0 <= i /\ s !! Z.to_nat i = Some x.
Proof.
  unfold index. destruct (Z.ltb_spec i 0); [|tauto].
  split; [done|lia].
Qed.

Lemma index_lt s i x : index s i = Some x -> 0 <= i < len s.
Proof.
  intros [? Hl%lookup_lt_Some]%index_Some. unfold len. lia.
Qed.

Lemma index_is_Some s i : 0 <= i < len s -> is_Some (index s i).
Proof.
  unfold len. intros ?. unfold index.
  destruct (Z.ltb_spec i 0); [lia|]. apply lookup_lt_is_Some. lia.
Qed.

Lemma store_of_nat s (k : nat) x :
  (k < length s)%nat -> store s (Z.of_nat k) x = Some (<[k := x]> s).
Proof.
  intros ?. unfold store, len.
  destruct (Z.leb_spec 0 (Z.of_nat k)); [|lia].
  destruct (Z.ltb_spec (Z.of_nat k) (Z.of_nat (length s))); [|lia].
  by rewrite Nat2Z.id.
Qed.

Lemma store_Some s i x s' :
  store s i x = Some s' ->
  0 <= i < len s /\ s' = <[Z.to_nat i := x]> s.
Proof.
  unfold store.
  destruct (Z.leb_spec 0 i), (Z.ltb_spec i (len s)); simpl; try done.
  intros [= <-]. split; [lia|done].
Qed.

Lemma store_is_Some s i x : 0 <= i < len s -> is_Some (store s i x).
Proof.
  intros ?. unfold store.
  destruct (Z.leb_spec 0 i), (Z.ltb_spec i (len s)); simpl; try lia; eauto.
Qed.

Lemma len_app s1 s2 : len (s1 ++ s2) = len s1 + len s2.
Proof. unfold len. rewrite length_app. lia. Qed.

Lemma len_nonneg s : 0 <= len s.
Proof. unfold len. lia. Qed.

(** Writing the slot just after a finished prefix. *)
Lemma store_cursor (pre rest : list A) x y :
  store (pre ++ y :: rest) (len pre) x = Some ((pre ++ [x]) ++ rest).
Proof.
  unfold len. rewrite store_of_nat by (rewrite length_app; simpl; lia).
  f_equal. rewrite insert_app_r_alt by lia.
  rewrite Nat.sub_diag. simpl. by rewrite <- app_assoc.
Qed.
End slices.

Lemma make_Some {A} (zero : A) n c :
  0 <= n <= c -> make zero n c = Some (replicate (Z.to_nat n) zero).
Proof.
  intros ?. unfold make.
  destruct (Z.leb_spec 0 n), (Z.leb_spec n c); try lia. done.
Qed.

Lemma foldlM_app {A B} (f : B -> A -> option B) b l1 l2 :
  foldlM f b (l1 ++ l2) = b' ← foldlM f b l1; foldlM f b' l2.
Proof.
  revert b. induction l1 as [|x l1 IH]; intros b; simpl; [done|].
  destruct (f b x); simpl; [apply IH|done].
Qed.

Lemma foldlM_snoc {A B} (f : B -> A -> option B) b l x :
  foldlM f b (l ++ [x]) = b' ← foldlM f b l; f b' x.
Proof.
  rewrite foldlM_app. destruct (foldlM f b l); simpl; [|done].
  by destruct (f _ x).
Qed.

(** ** The initial similarity matrix *)

Lemma populate_cursor i j pre y junk q :
  populate i (mkPool (pre ++ y :: junk) (len pre) q) j =
  Some (mkPool ((pre ++ [zero_entry i j]) ++ junk) (len pre + 1) (q ++ [len pre])).
Proof. unfold populate. simpl. by rewrite store_cursor. Qed.

Lemma populate_row i js : forall pre junk n q,
  n = len pre -> (length js <= length junk)%nat ->
  foldlM (populate i) (mkPool (pre ++ junk) n q) js =
  Some (mkPool (pre ++ (zero_entry i <$> js) ++ drop (length js) junk)
               (n + len js) (q ++ seqZ n (len js))).
Proof.
  induction js as [|j js IH]; intros pre junk n q -> Hlen; cbn [foldlM].
  - simpl. rewrite Z.add_0_r, app_nil_r. done.
  - destruct junk as [|y junk]; simpl in Hlen; [lia|].
    rewrite populate_cursor. simpl.
    rewrite (IH (pre ++ [zero_entry i j]) junk); [|by rewrite len_app|lia].
    f_equal. f_equal.
    + by rewrite <- app_assoc.
    + unfold len; simpl; lia.
    + rewrite <- app_assoc. f_equal. unfold len. simpl length.
      replace (Z.of_nat (S (length js))) with (1 + Z.of_nat (length js)) by lia.
      rewrite (seqZ_app _ 1) by lia. done.
Qed.

Lemma rows_cons i rs : rows (i :: rs) = (zero_entry i <$> seqZ 0 i) ++ rows rs.
Proof. done. Qed.

Lemma populate_rows rs : forall pre junk n q,
  n = len pre -> (length (rows rs) <= length junk)%nat ->
  foldlM (fun p i => foldlM (populate i) p (seqZ 0 i)) (mkPool (pre ++ junk) n q) rs =
  Some (mkPool (pre ++ rows rs ++ drop (length (rows rs)) junk)
               (n + len (rows rs)) (q ++ seqZ n (len (rows rs)))).
Proof.
  induction rs as [|i rs IH]; intros pre junk n q -> Hlen; cbn [foldlM].
  - simpl. rewrite Z.add_0_r, app_nil_r. done.
  - rewrite rows_cons in *. rewrite length_app, length_fmap in Hlen.
    rewrite populate_row; [|done|lia]. cbn [mbind option_bind].
    rewrite app_assoc.
    rewrite IH; [|rewrite len_app; unfold len; by rewrite length_fmap
                 |rewrite length_drop; lia].
    f_equal. f_equal.
    + rewrite <- !app_assoc. do 2 f_equal. rewrite drop_drop.
      rewrite length_app, length_fmap. done.
    + rewrite !len_app. unfold len. rewrite !length_fmap. lia.
    + rewrite <- app_assoc. f_equal. rewrite !len_app.
      unfold len. rewrite !length_fmap.
      rewrite <- seqZ_app by lia. done.
Qed.

Lemma pair_of_rows a (b : nat) :
  0 <= a ->
  pair_of <$> rows (seqZ a (Z.of_nat b)) = pairs_from (seqZ 0 a) (seqZ a (Z.of_nat b)).
Proof.
  revert a. induction b as [|b IH]; intros a Ha; [done|].
  rewrite seqZ_cons by lia. rewrite rows_cons, fmap_app. simpl.
  replace (Z.pred (Z.of_nat (S b))) with (Z.of_nat b) by lia.
  replace (Z.succ a) with (a + 1) by lia.
  rewrite IH by lia. f_equal.
  - rewrite <- list_fmap_compose. done.
  - f_equal. replace (a + 1) with (a + 1) by done.
    rewrite (seqZ_app 0 a 1) by lia. done.
Qed.

Lemma length_pairs_from seen rest :
  (2 * length (pairs_from seen rest) =
   2 * length seen * length rest + length rest * (length rest - 1))%nat.
Proof.
  revert seen. induction rest as [|x rest IH]; intros seen; simpl; [lia|].
  rewrite length_app, length_fmap.
  specialize (IH (seen ++ [x])). rewrite length_app in IH. simpl in IH.
  nia.
Qed.

Lemma length_all_pairs L :
  Z.of_nat (length (all_pairs L)) = ((len L - 1) * len L) `quot` 2.
Proof.
  unfold all_pairs, len. pose proof (length_pairs_from [] L) as H. simpl in H.
  destruct L as [|x L]; [done|]. simpl length in *.
  rewrite Z.quot_div_nonneg by lia.
  apply Z.div_unique with 0; [lia|]. nia.
Qed.

(** ** The barrier *)

Lemma worker_spec vecs sims n e :
  index sims n = Some e -> valid vecs e ->
  worker vecs sims n = Some (<[Z.to_nat n := recompute vecs e]> sims).
Proof.
  intros He [Hi Hj]. unfold worker. rewrite He. simpl.
  destruct (index_is_Some vecs _ Hi) as [a Ha].
  destruct (index_is_Some vecs _ Hj) as [b Hb].
  rewrite Ha, Hb. simpl.
  apply index_lt in He as Hn.
  unfold store. destruct (Z.leb_spec 0 n), (Z.ltb_spec n (len sims)); try lia.
  simpl. unfold recompute, sim_of. by rewrite Ha, Hb.
Qed.

Lemma wg_Wait_spec vecs queue : forall sims,
  Forall (valid vecs) sims ->
  Forall (fun n => 0 <= n < len sims) queue ->
  wg_Wait vecs sims queue = Some (waited vecs queue sims).
Proof.
  unfold wg_Wait, waited.
  induction queue as [|n queue IH]; intros sims Hv Hq; cbn [foldlM].
  - f_equal. apply list_eq. intros k. rewrite list_lookup_imap.
    by destruct (sims !! k).
  - apply Forall_cons in Hq as [Hn Hq].
    destruct (index_is_Some sims n Hn) as [e He].
    assert (valid vecs e) as Hve.
    { apply index_Some in He as [_ He].
      eapply Forall_lookup_1 in Hv; eauto. }
    rewrite (worker_spec _ _ _ _ He Hve). cbn [mbind option_bind].
    rewrite IH.
    + f_equal. apply list_eq. intros k. rewrite !list_lookup_imap.
      apply index_Some in He as [_ He].
      destruct (decide (k = Z.to_nat n)) as [->|Hk].
      * rewrite list_lookup_insert_eq by (unfold len in Hn; lia).
        rewrite He. simpl. f_equal.
        rewrite Z2Nat.id by lia.
        rewrite (decide_True (P := n ∈ n :: queue)) by apply list_elem_of_here.
        by case_decide.
      * rewrite list_lookup_insert_ne by done.
        destruct (sims !! k); simpl; [|done]. f_equal.
        assert (Z.of_nat k ∈ n :: queue <-> Z.of_nat k ∈ queue) as Hiff.
        { rewrite elem_of_cons. split; [intros [?|?]; [lia|done]|by right]. }
        repeat case_decide; tauto.
    + apply Forall_insert; [done|]. destruct Hve. by split.
    + unfold len in *. by rewrite length_insert.
Qed.

Lemma waited_all vecs queue sims :
  (forall k : nat, (k < length sims)%nat -> Z.of_nat k ∈ queue) ->
  waited vecs queue sims = recompute vecs <$> sims.
Proof.
  intros Hq. apply list_eq. intros k. unfold waited.
  rewrite list_lookup_imap, list_lookup_fmap.
  destruct (sims !! k) eqn:Hk; simpl; [|done].
  apply lookup_lt_Some in Hk. by rewrite decide_True by auto.
Qed.

Lemma elem_of_rows e rs :
  e ∈ rows rs <-> exists i j, e = zero_entry i j /\ i ∈ rs /\ 0 <= j < i.
Proof.
  unfold rows. rewrite list_elem_of_bind. split.
  - intros (i & (j & -> & Hj)%list_elem_of_fmap & Hi).
    apply elem_of_seqZ in Hj. exists i, j. split; [done|]. split; [done|lia].
  - intros (i & j & -> & Hi & Hj). exists i. split; [|done].
    apply list_elem_of_fmap. exists j. split; [done|]. apply elem_of_seqZ. lia.
Qed.

Lemma rows_valid vecs : Forall (valid vecs) (rows (seqZ 0 (len vecs))).
Proof.
  apply Forall_forall. intros e (i & j & -> & Hi%elem_of_seqZ & Hj)%elem_of_rows.
  unfold valid. simpl. lia.
Qed.

Lemma length_rows (n : Z) :
  0 <= n -> Z.of_nat (length (rows (seqZ 0 n))) = ((n - 1) * n) `quot` 2.
Proof.
  intros Hn. rewrite <- (length_fmap pair_of).
  rewrite <- (Z2Nat.id n) at 1 by done.
  rewrite (pair_of_rows 0) by done. simpl.
  change (pairs_from [] ?L) with (all_pairs L).
  rewrite length_all_pairs. unfold len. rewrite length_seqZ.
  rewrite !Z2Nat.id by lia. done.
Qed.

(** The state of [Cluster] when the rounds start: one entry for every pair
    of input vectors, with its similarity. *)
Lemma init_spec vecs :
  1 <= len vecs ->
  init vecs =
  Some {| c_vecs := vecs;
          c_sims := recompute vecs <$> rows (seqZ 0 (len vecs));
          c_merges := [] |}.
Proof.
  intros HN. unfold init.
  pose proof (length_rows (len vecs) ltac:(lia)) as HK.
  set (K := ((len vecs - 1) * len vecs) `quot` 2) in *.
  assert (0 <= K) by lia.
  rewrite !make_Some by lia. cbn [mbind option_bind].
  pose proof (populate_rows (seqZ 0 (len vecs)) []
                (replicate (Z.to_nat K) (mkSim 0 0 0%float)) 0 []) as Hp.
  simpl app in Hp. rewrite Hp; [|done|rewrite length_replicate; lia].
  cbn [mbind option_bind p_sims p_queue].
  rewrite drop_ge by (rewrite length_replicate; lia).
  rewrite app_nil_r.
  rewrite wg_Wait_spec.
  - cbn [mbind option_bind]. simpl.
    do 2 f_equal. apply waited_all. intros k Hk.
    apply elem_of_seqZ. unfold len in *. lia.
  - apply rows_valid.
  - apply Forall_forall. intros n Hn%elem_of_seqZ. lia.
Qed.

Lemma init_nil : init [] = None.
Proof. reflexivity. Qed.

(** ** The update of the similarity matrix *)

Lemma dispatched_snoc x n out e :
  dispatched x n (out ++ [e]) =
  dispatched x n out ++ (if refers x e then [n + len out] else []).
Proof.
  revert n. induction out as [|e' out IH]; intros n; simpl.
  - unfold len. simpl. by rewrite Z.add_0_r, app_nil_r.
  - rewrite IH, <- app_assoc. do 2 f_equal.
    unfold len. simpl length. destruct (refers x e); [|done].
    f_equal. lia.
Qed.

Lemma elem_of_dispatched x n out z :
  z ∈ dispatched x n out <->
  exists (p : nat) e, z = n + Z.of_nat p /\ out !! p = Some e /\ refers x e = true.
Proof.
  revert n. induction out as [|e' out IH]; intros n; simpl.
  - split; [by intros ?%elem_of_nil|by intros (? & ? & ? & ? & ?)].
  - rewrite elem_of_app, IH. split.
    + intros [Hz|(p & e & -> & Hp & He)].
      * destruct (refers x e') eqn:Hr; [|by apply elem_of_nil in Hz].
        apply list_elem_of_singleton in Hz as ->.
        exists 0%nat, e'. split; [lia|done].
      * exists (S p), e. split; [lia|done].
    + intros ([|p] & e & -> & Hp & He); simpl in Hp.
      * injection Hp as ->. left. rewrite He.
        apply list_elem_of_singleton. lia.
      * right. exists p, e. split; [lia|done].
Qed.

Lemma NoDup_dispatched x n out : NoDup (dispatched x n out).
Proof.
  revert n. induction out as [|e out IH]; intros n; simpl; [constructor|].
  destruct (refers x e); simpl; [|apply IH].
  constructor; [|apply IH].
  intros (p & ? & ? & _)%elem_of_dispatched. lia.
Qed.

Lemma kept_snoc m sims e :
  kept m (sims ++ [e]) =
  kept m sims ++ (if refers (sim_j m) e then [] else [reset m e]).
Proof.
  unfold kept. rewrite filter_app, fmap_app. f_equal.
  rewrite filter_cons, filter_nil.
  destruct (refers (sim_j m) e); by case_decide.
Qed.

Lemma length_kept_le m sims : (length (kept m sims) <= length sims)%nat.
Proof. unfold kept. rewrite length_fmap. apply length_filter. Qed.

Lemma refers_reset x m e : refers x (reset m e) = refers x e.
Proof. unfold reset. by destruct (refers (sim_i m) e). Qed.

(** The state of the update loop after it has read the first [k] entries:
    the kept entries are compacted at the front of the slice, and the rest
    of the slice is as it was. *)
Lemma update_loop m orig (k : nat) :
  (k <= length orig)%nat ->
  foldlM (update m) (mkPool orig 0 []) (seqZ 0 (Z.of_nat k)) =
  Some (mkPool (kept m (take k orig) ++ drop (length (kept m (take k orig))) orig)
               (len (kept m (take k orig)))
               (dispatched (sim_i m) 0 (kept m (take k orig)))).
Proof.
  induction k as [|k IH]; intros Hk.
  - simpl. by rewrite drop_0.
  - rewrite seqZ_S, foldlM_snoc, IH by lia. cbn [mbind option_bind].
    destruct (lookup_lt_is_Some_2 orig k) as [sim Hsim]; [lia|].
    rewrite (take_S_r _ _ _ Hsim), kept_snoc.
    set (out := kept m (take k orig)).
    assert (length out <= k)%nat as Hout.
    { etrans; [apply length_kept_le|]. rewrite length_take. lia. }
    unfold update. cbn [p_sims p_n p_queue]. rewrite Z.add_0_l.
    rewrite index_of_nat, lookup_app_r, lookup_drop by done.
    replace (length out + (k - length out))%nat with k by lia.
    rewrite Hsim. cbn [mbind option_bind].
    change ((sim_i sim =? sim_j m) || (sim_j sim =? sim_j m))
      with (refers (sim_j m) sim).
    change ((sim_i sim =? sim_i m) || (sim_j sim =? sim_i m))
      with (refers (sim_i m) sim).
    destruct (refers (sim_j m) sim) eqn:Hj.
    { by rewrite app_nil_r. }
    destruct (lookup_lt_is_Some_2 orig (length out)) as [y Hy]; [lia|].
    rewrite (drop_S _ _ _ Hy), length_app. simpl length.
    rewrite dispatched_snoc, refers_reset. unfold reset.
    destruct (refers (sim_i m) sim) eqn:Hi;
      rewrite store_cursor; cbn [mbind option_bind];
      rewrite <- app_assoc, len_app; simpl; f_equal;
      rewrite ?app_nil_r; f_equal; try done;
      rewrite <- ?app_assoc; unfold zero_entry; simpl;
      by replace (length out + 1)%nat with (S (length out)) by lia.
Qed.

Lemma update_loop_all m orig :
  foldlM (update m) (mkPool orig 0 []) (seqZ 0 (len orig)) =
  Some (mkPool (kept m orig ++ drop (length (kept m orig)) orig)
               (len (kept m orig))
               (dispatched (sim_i m) 0 (kept m orig))).
Proof. unfold len at 1. rewrite update_loop by done. by rewrite firstn_all. Qed.

Lemma recompute_reset vecs m e : recompute vecs (reset m e) = recompute vecs e.
Proof. unfold reset. by destruct (refers (sim_i m) e). Qed.

(** After the barrier, the compacted front of the slice is the update of
    the specification. *)
Lemma take_waited vecs m sims tail :
  take (length (kept m sims))
       (waited vecs (dispatched (sim_i m) 0 (kept m sims)) (kept m sims ++ tail)) =
  update_spec vecs m sims.
Proof.
  unfold waited. rewrite imap_app.
  rewrite take_app_length' by (by rewrite length_imap).
  apply list_eq. intros k. unfold update_spec, kept.
  rewrite list_lookup_imap, !list_lookup_fmap.
  set (F := filter _ sims).
  destruct (F !! k) as [e|] eqn:He; simpl; [|done]. f_equal.
  case_decide as Hin.
  - apply elem_of_dispatched in Hin as (p & e' & Hp & He' & Hr).
    assert (p = k) as -> by lia.
    rewrite list_lookup_fmap, He in He'. injection He' as <-.
    rewrite refers_reset in Hr. by rewrite Hr, recompute_reset.
  - destruct (refers (sim_i m) e) eqn:Hr.
    + exfalso. apply Hin. apply elem_of_dispatched.
      exists k, (reset m e). split; [lia|]. split.
      * by rewrite list_lookup_fmap, He.
      * by rewrite refers_reset.
    + unfold reset. by rewrite Hr.
Qed.

Lemma valid_insert vecs k v e : valid vecs e -> valid (<[k := v]> vecs) e.
Proof. unfold valid, len. by rewrite length_insert. Qed.

Lemma valid_reset vecs m e : valid vecs e -> valid vecs (reset m e).
Proof. unfold reset. by destruct (refers (sim_i m) e). Qed.

(** One round: the survivor's vector absorbs the other one, the similarity
    matrix is updated as the specification says, and the merge is recorded;
    the round panics only if [Add] does. *)
Lemma round_spec st r m a b :
  select (c_sims st) = Some m ->
  index (c_vecs st) (sim_i m) = Some a ->
  index (c_vecs st) (sim_j m) = Some b ->
  Forall (valid (c_vecs st)) (c_sims st) ->
  len (c_sims st) - len (c_vecs st) + r + 1 = len (kept m (c_sims st)) ->
  round st r = a' ← Add a b; Some (next st m a').
Proof.
  destruct st as [vecs sims merges]. unfold next. cbn [c_vecs c_sims c_merges].
  intros Hsel Ha Hb Hvalid Hlen.
  unfold select in Hsel.
  destruct (index sims 0) as [e0|] eqn:He0; [|done]. injection Hsel as Hm.
  unfold round. cbn [c_vecs c_sims c_merges].
  rewrite He0. cbn [mbind option_bind]. rewrite Hm, Ha, Hb.
  cbn [mbind option_bind]. destruct (Add a b) as [a'|]; [|done].
  cbn [mbind option_bind].
  apply index_lt in Ha as Hi.
  destruct (store_is_Some vecs (sim_i m) a' Hi) as [vecs' Hst].
  rewrite Hst. apply store_Some in Hst as [_ ->]. cbn [mbind option_bind].
  rewrite update_loop_all. cbn [mbind option_bind p_sims p_queue].
  pose proof (length_kept_le m sims) as Hle.
  rewrite wg_Wait_spec.
  - cbn [mbind option_bind].
    assert (len (waited (<[Z.to_nat (sim_i m):=a']> vecs)
                   (dispatched (sim_i m) 0 (kept m sims))
                   (kept m sims ++ drop (length (kept m sims)) sims)) = len sims)
      as Hlw.
    { unfold waited, len. rewrite length_imap, length_app, length_drop. lia. }
    rewrite Hlw. unfold len at 2. rewrite length_insert. fold (len vecs).
    rewrite Hlen. unfold reslice. rewrite Hlw.
    destruct (Z.leb_spec 0 (len (kept m sims))); [|unfold len in *; lia].
    destruct (Z.leb_spec (len (kept m sims)) (len sims)); [|unfold len in *; lia].
    cbn [andb mbind option_bind]. unfold len at 1. rewrite Nat2Z.id.
    by rewrite take_waited.
  - apply Forall_app. split.
    + unfold kept. apply Forall_fmap, Forall_forall.
      intros e [_ He]%list_elem_of_filter. simpl.
      apply valid_reset, valid_insert.
      by eapply Forall_forall in Hvalid.
    + apply Forall_drop. eapply Forall_impl; [done|].
      intros e. apply valid_insert.
  - apply Forall_forall. intros z (p & e & -> & Hp%lookup_lt_Some & _)%elem_of_dispatched.
    rewrite len_app. unfold len. lia.
Qed.

(** ** The pairs of active clusters *)

Lemma elem_of_pairs_from seen rest a b :
  (a, b) ∈ pairs_from seen rest ->
  a ∈ rest /\ b ∈ seen ++ rest.
Proof.
  revert seen. induction rest as [|x rest IH]; intros seen; simpl.
  - by intros ?%elem_of_nil.
  - rewrite elem_of_app. intros [(y & [= -> ->] & Hy)%list_elem_of_fmap|H].
    + split; [apply list_elem_of_here|]. apply elem_of_app. by left.
    + apply IH in H as [Ha Hb]. split; [by apply list_elem_of_further|].
      by rewrite <- app_assoc in Hb.
Qed.

Lemma pairs_from_lt seen rest a b :
  StronglySorted Z.lt (seen ++ rest) ->
  (a, b) ∈ pairs_from seen rest -> b < a.
Proof.
  revert seen. induction rest as [|x rest IH]; intros seen Hs; simpl.
  - by intros ?%elem_of_nil.
  - rewrite elem_of_app. intros [(y & [= -> ->] & Hy)%list_elem_of_fmap|H].
    + eapply StronglySorted_app_1_elem_of; [done..|apply list_elem_of_here].
    + eapply IH; [|done]. by rewrite <- app_assoc.
Qed.

Lemma pairs_from_complete seen rest a b :
  StronglySorted Z.lt (seen ++ rest) ->
  a ∈ rest -> b ∈ seen ++ rest -> b < a ->
  (a, b) ∈ pairs_from seen rest.
Proof.
  revert seen. induction rest as [|x rest IH]; intros seen Hs Ha Hb Hlt; simpl.
  - by apply elem_of_nil in Ha.
  - apply elem_of_app. apply elem_of_cons in Ha as [->|Ha].
    + left. apply list_elem_of_fmap. exists b. split; [done|].
      apply elem_of_app in Hb as [Hb|Hb]; [done|]. exfalso.
      apply StronglySorted_app_1_r in Hs. apply StronglySorted_inv in Hs as [_ Hs].
      apply elem_of_cons in Hb as [->|Hb]; [lia|].
      eapply Forall_forall in Hs; [|done]. lia.
    + right. apply IH; [by rewrite <- app_assoc|done| |done].
      by rewrite <- app_assoc.
Qed.

Lemma NoDup_pairs_from seen rest :
  NoDup (seen ++ rest) -> NoDup (pairs_from seen rest).
Proof.
  revert seen. induction rest as [|x rest IH]; intros seen Hnd; simpl.
  - constructor.
  - apply NoDup_app. split; [|split].
    + apply NoDup_fmap_2; [by intros ?? [=]|]. by apply NoDup_app in Hnd as [? _].
    + intros [a b] (y & [= -> ->] & Hy)%list_elem_of_fmap [Ha _]%elem_of_pairs_from.
      apply NoDup_app in Hnd as (_ & _ & Hnd). by apply NoDup_cons in Hnd as [? _].
    + apply IH. by rewrite <- app_assoc.
Qed.

Lemma filter_pair_ne (x y : Z) (seen : list Z) :
  y ≠ x ->
  filter (fun p : Z * Z => p.1 ≠ x /\ p.2 ≠ x) (pair y <$> seen) =
  pair y <$> filter (fun z => z ≠ x) seen.
Proof.
  intros Hy. induction seen as [|z seen IH]; [done|].
  rewrite fmap_cons, !filter_cons. simpl.
  destruct (decide (z ≠ x)).
  - rewrite decide_True by done. by rewrite IH.
  - rewrite decide_False by tauto. done.
Qed.

Lemma filter_pair_eq (x : Z) (seen : list Z) :
  filter (fun p : Z * Z => p.1 ≠ x /\ p.2 ≠ x) (pair x <$> seen) = [].
Proof.
  induction seen as [|z seen IH]; [done|].
  rewrite fmap_cons, filter_cons. simpl. by rewrite decide_False by tauto.
Qed.

Lemma filter_pairs_from x seen rest :
  filter (fun p : Z * Z => p.1 ≠ x /\ p.2 ≠ x) (pairs_from seen rest) =
  pairs_from (filter (fun y => y ≠ x) seen) (filter (fun y => y ≠ x) rest).
Proof.
  revert seen. induction rest as [|y rest IH]; intros seen; simpl; [done|].
  rewrite filter_app, IH, filter_app, filter_cons, filter_nil.
  destruct (decide (y ≠ x)) as [Hy|Hy].
  - simpl. rewrite filter_pair_ne by done.
    by rewrite (filter_cons _ y rest), decide_True by done.
  - assert (y = x) as -> by (destruct (decide (y = x)); tauto).
    rewrite filter_pair_eq, app_nil_r.
    by rewrite (filter_cons _ x rest), decide_False by tauto.
Qed.

Lemma len_all_pairs L : 2 * len (all_pairs L) = len L * (len L - 1).
Proof.
  unfold all_pairs, len. pose proof (length_pairs_from [] L) as H. simpl in H.
  destruct L as [|x L]; [done|]. simpl length in *. nia.
Qed.

Lemma filter_ne_perm (x : Z) l :
  NoDup l -> x ∈ l -> l ≡ₚ x :: filter (fun y => y ≠ x) l.
Proof.
  induction l as [|y l IH]; intros Hnd Hx; [by apply elem_of_nil in Hx|].
  apply NoDup_cons in Hnd as [Hy Hnd]. rewrite filter_cons.
  destruct (decide (y ≠ x)) as [Hne|Heq].
  - apply elem_of_cons in Hx as [->|Hx]; [done|].
    rewrite (IH Hnd Hx) at 1. apply perm_swap.
  - assert (y = x) as -> by (destruct (decide (y = x)); tauto).
    constructor. clear IH Hx Hnd Heq. induction l as [|z l IHl]; [done|].
    apply not_elem_of_cons in Hy as [? ?]. rewrite filter_cons.
    rewrite decide_True by done. f_equal. auto.
Qed.

Lemma StronglySorted_seqZ m n : StronglySorted Z.lt (seqZ m n).
Proof.
  destruct (Z.le_gt_cases n 0) as [Hn|Hn].
  { rewrite seqZ_nil by done. constructor. }
  rewrite <- (Z2Nat.id n) by lia. generalize (Z.to_nat n) as k. clear n Hn.
  intros k. revert m. induction k as [|k IH]; intros m; [constructor|].
  rewrite seqZ_cons by lia. constructor.
  - replace (Z.pred (Z.of_nat (S k))) with (Z.of_nat k) by lia. apply IH.
  - apply Forall_forall. intros x Hx%elem_of_seqZ. lia.
Qed.

Lemma StronglySorted_filter {A} (R : relation A) (P : A -> Prop)
    `{forall x, Decision (P x)} l :
  StronglySorted R l -> StronglySorted R (filter P l).
Proof.
  induction 1 as [|x l Hl IH Hx]; [constructor|].
  rewrite filter_cons. case_decide; [|done].
  constructor; [done|].
  apply Forall_forall. intros y [_ Hy]%list_elem_of_filter.
  by eapply Forall_forall in Hx.
Qed.

(** ** The active clusters *)

Lemma active_nil n : active n [] = seqZ 0 n.
Proof.
  unfold active. simpl. induction (seqZ 0 n) as [|x l IH]; [done|].
  rewrite filter_cons, decide_True by apply not_elem_of_nil. by rewrite IH.
Qed.

Lemma active_snoc n merges m :
  active n (merges ++ [m]) = filter (fun y => y ≠ Right m) (active n merges).
Proof.
  unfold active. rewrite list_filter_filter. apply list_filter_iff.
  intros x. rewrite fmap_app, not_elem_of_app. simpl.
  rewrite list_elem_of_singleton. tauto.
Qed.

Lemma active_sorted n merges : StronglySorted Z.lt (active n merges).
Proof. apply StronglySorted_filter, StronglySorted_seqZ. Qed.

Lemma active_NoDup n merges : NoDup (active n merges).
Proof. apply NoDup_filter, NoDup_seqZ. Qed.

Lemma elem_of_active n merges x : x ∈ active n merges -> 0 <= x < n.
Proof. intros [_ Hx%elem_of_seqZ]%list_elem_of_filter. lia. Qed.

(** ** The selection of the most similar pair *)

Lemma find_max_in e sims : find_max e sims ∈ e :: sims.
Proof.
  unfold find_max. revert e. induction sims as [|s sims IH]; intros e; simpl.
  - apply list_elem_of_here.
  - destruct (PrimFloat.ltb (sim_val e) (sim_val s)).
    + apply list_elem_of_further, IH.
    + specialize (IH e). apply elem_of_cons in IH as [->|IH].
      * apply list_elem_of_here.
      * by do 2 apply list_elem_of_further.
Qed.

Lemma select_in sims m : select sims = Some m -> m ∈ sims.
Proof.
  unfold select. destruct (index sims 0) as [e|] eqn:He; [|done].
  intros [= <-]. apply index_Some in He as [_ He]. simpl in He.
  apply list_elem_of_lookup_2 in He.
  pose proof (find_max_in e sims) as [->|?]%elem_of_cons; done.
Qed.

Lemma select_is_Some sims : sims ≠ [] -> is_Some (select sims).
Proof. unfold select. destruct sims; [done|]. intros _. simpl. eauto. Qed.

(** ** Vectors with an allocated map *)

Lemma Add_allocated a b :
  allocated a -> exists a', Add a b = Some a' /\ allocated a'.
Proof.
  intros [g Hg]. unfold Add. rewrite Hg.
  generalize (map_range (M b)) as l. intros l.
  assert (exists g', foldlM (fun m kv =>
            map_set m kv.1 (int_add (map_get m kv.1) (map_get (M b) kv.1)))
            (Some g) l = Some (Some g')) as [g' ->].
  { clear Hg. revert g. induction l as [|kv l IH]; intros g; simpl; eauto. }
  simpl. eexists. split; [done|]. unfold allocated. simpl. eauto.
Qed.

(** ** One round *)

Lemma refers_false x e : refers x e = false <-> sim_i e ≠ x /\ sim_j e ≠ x.
Proof.
  unfold refers. rewrite orb_false_iff.
  destruct (Z.eqb_spec (sim_i e) x), (Z.eqb_spec (sim_j e) x); intuition congruence.
Qed.

Lemma pair_of_update_spec vecs m sims :
  pair_of <$> update_spec vecs m sims =
  filter (fun p : Z * Z => p.1 ≠ sim_j m /\ p.2 ≠ sim_j m) (pair_of <$> sims).
Proof.
  unfold update_spec. induction sims as [|e sims IH]; [done|].
  rewrite fmap_cons, !filter_cons.
  destruct (decide (refers (sim_j m) e = false)) as [He|He].
  - rewrite decide_True by (by apply refers_false).
    rewrite !fmap_cons, IH. f_equal. by destruct (refers (sim_i m) e).
  - rewrite decide_False; [done|]. intros ?. by apply He, refers_false.
Qed.

Lemma len_kept m sims : len (kept m sims) = len (update_spec (@nil Vec) m sims).
Proof. unfold kept, update_spec, len. by rewrite !length_fmap. Qed.

Lemma len_fmap {A B} (f : A -> B) l : len (f <$> l) = len l.
Proof. unfold len. by rewrite length_fmap. Qed.

(** What a round does from a state that satisfies the invariant. *)
Lemma round_step n r st :
  invariant n r st -> 0 <= r < n - 1 ->
  exists m a b,
    select (c_sims st) = Some m /\
    index (c_vecs st) (sim_i m) = Some a /\
    index (c_vecs st) (sim_j m) = Some b /\
    sim_i m ∈ active n (c_merges st) /\
    sim_j m ∈ active n (c_merges st) /\
    sim_j m < sim_i m /\
    round st r = (a' ← Add a b; Some (next st m a')) /\
    forall a', invariant n (r + 1) (next st m a').
Proof.
  intros [Hvecs Hsims Hact Hmerges Hperm Horder] Hr.
  set (L := active n (c_merges st)) in *.
  pose proof (len_all_pairs L) as HlenL.
  rewrite <- Hsims, len_fmap in HlenL.
  assert (c_sims st ≠ []) as Hne.
  { intros Heq. rewrite Heq in HlenL. unfold len in HlenL at 1. simpl in HlenL. nia. }
  destruct (select_is_Some _ Hne) as [m Hm].
  pose proof (select_in _ _ Hm) as Hin.
  assert (pair_of m ∈ all_pairs L) as Hpair.
  { rewrite <- Hsims. apply list_elem_of_fmap. eauto. }
  pose proof (pairs_from_lt [] L _ _ (active_sorted _ _) Hpair) as Hlt.
  apply elem_of_pairs_from in Hpair as [Hi Hj]. simpl in Hj.
  pose proof (elem_of_active _ _ _ Hi) as Hir.
  pose proof (elem_of_active _ _ _ Hj) as Hjr.
  destruct (index_is_Some (c_vecs st) (sim_i m)) as [a Ha]; [lia|].
  destruct (index_is_Some (c_vecs st) (sim_j m)) as [b Hb]; [lia|].
  assert (Forall (valid (c_vecs st)) (c_sims st)) as Hvalid.
  { apply Forall_forall. intros e He.
    assert (pair_of e ∈ all_pairs L) as [Hei Hej]%elem_of_pairs_from.
    { rewrite <- Hsims. apply list_elem_of_fmap. eauto. }
    simpl in Hej. apply elem_of_active in Hei, Hej. unfold valid. lia. }
  set (L' := filter (fun y => y ≠ sim_j m) L).
  assert (L ≡ₚ sim_j m :: L') as HL.
  { apply filter_ne_perm; [apply active_NoDup|done]. }
  assert (len L = len L' + 1) as HlenL'.
  { unfold len. rewrite HL. simpl length. lia. }
  assert (forall vecs', pair_of <$> update_spec vecs' m (c_sims st) = all_pairs L')
    as Hsims'.
  { intros vecs'. rewrite pair_of_update_spec, Hsims. apply filter_pairs_from. }
  assert (len (kept m (c_sims st)) = len (all_pairs L')) as Hkept.
  { rewrite <- (Hsims' []), len_fmap. unfold kept, update_spec. by rewrite !len_fmap. }
  pose proof (len_all_pairs L') as HlenP'.
  exists m, a, b. repeat (split; [done|]). split.
  - apply round_spec; try done. nia.
  - intros a'.
    assert (active n (c_merges st ++ [mkMerge (sim_i m) (sim_j m)]) = L') as Hact'.
    { by rewrite active_snoc. }
    unfold next. split; cbn [c_vecs c_sims c_merges]; rewrite ?Hact'.
    + unfold len in *. by rewrite length_insert.
    + done.
    + lia.
    + rewrite len_app. unfold len at 2. simpl. lia.
    + rewrite fmap_app. simpl.
      rewrite <- Hperm, HL. rewrite (Permutation_app_comm _ [sim_j m]).
      simpl. by rewrite Permutation_middle.
    + apply Forall_app. split; [done|]. apply Forall_singleton. simpl. lia.
Qed.

Lemma pair_of_init vecs n :
  0 <= n -> pair_of <$> (recompute vecs <$> rows (seqZ 0 n)) = all_pairs (seqZ 0 n).
Proof.
  intros Hn. rewrite <- list_fmap_compose.
  change (pair_of ∘ recompute vecs) with pair_of.
  pose proof (pair_of_rows 0 (Z.to_nat n) ltac:(done)) as H.
  by rewrite Z2Nat.id in H by done.
Qed.

Lemma invariant_init vecs :
  1 <= len vecs ->
  invariant (len vecs) 0
    {| c_vecs := vecs;
       c_sims := recompute vecs <$> rows (seqZ 0 (len vecs));
       c_merges := [] |}.
Proof.
  intros Hn. split; cbn [c_vecs c_sims c_merges]; rewrite ?active_nil; try done.
  - apply pair_of_init. lia.
  - unfold len. rewrite length_seqZ. lia.
  - simpl. by rewrite app_nil_r.
Qed.

Lemma boundary_S vecs (r : nat) :
  boundary vecs (Z.of_nat (S r)) =
  st ← boundary vecs (Z.of_nat r); round st (Z.of_nat r).
Proof.
  unfold boundary. destruct (init vecs) as [st0|]; [|done].
  cbn [mbind option_bind]. by rewrite seqZ_S, foldlM_snoc, Z.add_0_l.
Qed.

(** The invariant holds at every round boundary that [Cluster] reaches. *)
Lemma boundary_invariant vecs (r : nat) st :
  Z.of_nat r <= len vecs - 1 ->
  boundary vecs (Z.of_nat r) = Some st ->
  invariant (len vecs) (Z.of_nat r) st.
Proof.
  revert st. induction r as [|r IH]; intros st Hr.
  - unfold boundary. rewrite init_spec by lia. simpl. intros [= <-].
    apply invariant_init. lia.
  - rewrite boundary_S.
    destruct (boundary vecs (Z.of_nat r)) as [st0|]; [|done].
    cbn [mbind option_bind]. intros Hround.
    destruct (round_step _ _ _ (IH st0 ltac:(lia) eq_refl))
      as (m & a & b & _ & _ & _ & _ & _ & _ & Heq & Hinv); [lia|].
    rewrite Heq in Hround. destruct (Add a b) as [a'|]; [|done].
    injection Hround as <-.
    replace (Z.of_nat (S r)) with (Z.of_nat r + 1) by lia. apply Hinv.
Qed.

(** On allocated vectors no round panics. *)
Lemma boundary_total vecs (r : nat) :
  Forall allocated vecs -> Z.of_nat r <= len vecs - 1 ->
  exists st, boundary vecs (Z.of_nat r) = Some st /\
             Forall allocated (c_vecs st).
Proof.
  intros Halloc. induction r as [|r IH]; intros Hr.
  - unfold boundary. rewrite init_spec by lia. simpl. eauto.
  - destruct IH as (st & Hst & Hall); [lia|].
    rewrite boundary_S, Hst. cbn [mbind option_bind].
    destruct (round_step _ _ _ (boundary_invariant vecs r st ltac:(lia) Hst))
      as (m & a & b & _ & Ha & _ & _ & _ & _ & Heq & _); [lia|].
    rewrite Heq.
    assert (allocated a) as Haa.
    { apply index_Some in Ha as [_ Ha]. by eapply Forall_lookup_1 in Hall. }
    destruct (Add_allocated a b Haa) as (a' & -> & Ha').
    cbn [mbind option_bind]. eexists. split; [done|].
    unfold next. cbn [c_vecs]. by apply Forall_insert.
Qed.

(** ** The results of [Cluster] *)

Lemma all_pairs_one_entry L sims :
  StronglySorted Z.lt L -> NoDup L ->
  pair_of <$> sims = all_pairs L -> one_entry_per_pair L sims.
Proof.
  intros Hs Hnd Hsims. split.
  - intros e He.
    assert (pair_of e ∈ all_pairs L) as Hp.
    { rewrite <- Hsims. apply list_elem_of_fmap. eauto. }
    pose proof (pairs_from_lt [] L _ _ Hs Hp).
    apply elem_of_pairs_from in Hp as [? ?]. simpl in *.
    repeat split; [done..|lia].
  - assert (forall x y, x ∈ L -> y ∈ L -> y < x ->
              exists k : nat,
                (exists e, sims !! k = Some e /\ joins x y e) /\
                (forall k' : nat, (exists e, sims !! k' = Some e /\ joins x y e) -> k' = k))
      as Hlt.
    { intros x y Hx Hy Hxy.
      assert ((x, y) ∈ pair_of <$> sims) as Hin.
      { rewrite Hsims. by apply (pairs_from_complete [] L). }
      apply list_elem_of_lookup in Hin as [k Hk].
      exists k. split.
      - rewrite list_lookup_fmap in Hk.
        destruct (sims !! k) as [e|]; simpl in Hk; [|done].
        exists e. split; [done|]. left. congruence.
      - intros k' (e & He & [Hj|Hj]).
        + assert ((pair_of <$> sims) !! k' = Some (x, y)) as Hk'.
          { by rewrite list_lookup_fmap, He; simpl; rewrite Hj. }
          eapply (NoDup_lookup (pair_of <$> sims)); [|done..].
          rewrite Hsims. by apply (NoDup_pairs_from [] L).
        + exfalso.
          assert ((y, x) ∈ all_pairs L) as Hp.
          { rewrite <- Hsims, <- Hj. apply list_elem_of_fmap.
            exists e. split; [done|]. by eapply list_elem_of_lookup_2. }
          apply (pairs_from_lt [] L) in Hp; [lia|done]. }
    intros x y Hx Hy Hne.
    destruct (Z.lt_total x y) as [Hxy|[Hxy|Hxy]]; [|done|by apply Hlt].
    destruct (Hlt y x Hy Hx Hxy) as (k & (e & He & Hj) & Huniq).
    exists k. split.
    + exists e. split; [done|]. destruct Hj; [by right|by left].
    + intros k' (e' & He' & Hj'). apply Huniq. exists e'. split; [done|].
      destruct Hj'; [by right|by left].
Qed.

Lemma Cluster_boundary vecs merges :
  Cluster vecs = Some merges ->
  1 <= len vecs /\
  exists st, boundary vecs (len vecs - 1) = Some st /\ c_merges st = merges /\
             invariant (len vecs) (len vecs - 1) st.
Proof.
  unfold Cluster. intros H.
  destruct (boundary vecs (len vecs - 1)) as [st|] eqn:Hst; [|done].
  injection H as <-.
  assert (1 <= len vecs) as Hn.
  { destruct vecs; [done|]. unfold len. simpl length. lia. }
  split; [done|]. exists st. split; [done|]. split; [done|].
  replace (len vecs - 1) with (Z.of_nat (Z.to_nat (len vecs - 1))) in * by lia.
  apply boundary_invariant; [lia|done].
Qed.

(** On one or more allocated vectors [Cluster] returns. *)
Lemma Cluster_total vecs :
  Forall allocated vecs -> 1 <= len vecs -> is_Some (Cluster vecs).
Proof.
  intros Halloc Hn. unfold Cluster.
  destruct (boundary_total vecs (Z.to_nat (len vecs - 1)) Halloc) as (st & Hst & _);
    [lia|].
  rewrite Z2Nat.id in Hst by lia. rewrite Hst. simpl. eauto.
Qed.

(** The merges of [Cluster] on [n >= 1] vectors: there are [n - 1] of them,
    and the clusters they absorb are all the indices but one. *)
Lemma Cluster_merges vecs merges :
  Cluster vecs = Some merges ->
  len merges = len vecs - 1 /\
  Forall (fun m => 0 <= Right m < Left m /\ Left m < len vecs) merges /\
  exists survivor, survivor :: (Right <$> merges) ≡ₚ seqZ 0 (len vecs).
Proof.
  intros (Hn & st & _ & <- & [_ _ Hact Hm Hperm Horder])%Cluster_boundary.
  split; [done|]. split; [done|].
  destruct (active (len vecs) (c_merges st)) as [|s [|? ?]] eqn:HL;
    unfold len in Hact; simpl in Hact; try lia.
  exists s. by rewrite <- Hperm.
Qed.

(** ** The order of float64 *)








(** ** The scan selects the first maximum *)



(** ** The rounds of [Cluster] *)

(** A round between two boundaries that [Cluster] reaches. *)
Lemma boundary_round vecs r st st' :
  0 <= r < len vecs - 1 ->
  boundary vecs r = Some st -> boundary vecs (r + 1) = Some st' ->
  exists m a b a',
    select (c_sims st) = Some m /\
    index (c_vecs st) (sim_i m) = Some a /\
    index (c_vecs st) (sim_j m) = Some b /\
    Add a b = Some a' /\
    sim_i m ∈ active (len vecs) (c_merges st) /\
    sim_j m ∈ active (len vecs) (c_merges st) /\
    sim_j m < sim_i m /\
    st' = next st m a'.
Proof.
  intros Hr Hst Hst'.
  rewrite <- (Z2Nat.id r) in Hst, Hst' by lia.
  replace (Z.of_nat (Z.to_nat r) + 1) with (Z.of_nat (S (Z.to_nat r))) in Hst' by lia.
  rewrite boundary_S, Hst in Hst'. cbn [mbind option_bind] in Hst'.
  apply boundary_invariant in Hst as Hinv; [|lia].
  destruct (round_step _ _ _ Hinv) as (m & a & b & Hm & Ha & Hb & Hi & Hj & Hlt & Heq & _);
    [lia|].
  rewrite Heq in Hst'. destruct (Add a b) as [a'|] eqn:Hadd; [|done].
  injection Hst' as <-. exists m, a, b, a'. done.
Qed.

Lemma boundary_invariant_Z vecs r st :
  0 <= r <= len vecs - 1 -> boundary vecs r = Some st ->
  invariant (len vecs) r st.
Proof.
  intros Hr Hst. rewrite <- (Z2Nat.id r) in * by lia.
  apply boundary_invariant; [lia|done].
Qed.

Lemma boundary_total_Z vecs r :
  Forall allocated vecs -> 0 <= r <= len vecs - 1 -> is_Some (boundary vecs r).
Proof.
  intros Halloc Hr.
  destruct (boundary_total vecs (Z.to_nat r) Halloc) as (st & Hst & _); [lia|].
  rewrite Z2Nat.id in Hst by lia. eauto.
Qed.

Lemma invariant_sims_lt n r st :
  invariant n r st -> Forall (fun e => sim_j e < sim_i e) (c_sims st).
Proof.
  intros [_ Hsims _ _ _ _]. apply Forall_forall. intros e He.
  apply (pairs_from_lt [] (active n (c_merges st))); [apply active_sorted|].
  change (pair_of e ∈ all_pairs (active n (c_merges st))).
  rewrite <- Hsims. apply list_elem_of_fmap. eauto.
Qed.

(** ** The claims about [Cluster] *)

(** C1 (code defect).  The specification asks [Cluster] to complete on every
    input, and to return the empty merge sequence on zero or one vector.  On
    one vector it does; on the empty slice [make([]Merge, 0, len(vecs)-1)]
    is called with the capacity -1 and panics. *)
Theorem C1_Cluster_panics_on_empty :
  make (mkMerge 0 0) 0 (len (@nil Vec) - 1) = None /\
  Cluster [] = None /\
  Cluster [NewVec ["a"]] = Some [].
Proof. repeat split; vm_compute; reflexivity. Qed.

(** C2 (code defect).  The specification asks for exactly max(n-1, 0) merges
    on every input of n vectors.  For n = 0 that is the empty sequence, but
    [Cluster] panics on the empty slice and returns no sequence at all (the
    defect of C1).  For n >= 1 the count and the absorbed indices are as the
    claim says: [Cluster_merges] and [Cluster_total]. *)
Theorem C2_no_merges_on_empty :
  len <$> Cluster (@nil Vec) = None /\
  Z.max (len (@nil Vec) - 1) 0 = 0.
Proof. split; vm_compute; reflexivity. Qed.

(** C9.  Every merge that [Cluster] emits has [Left > Right]: at every round
    boundary each similarity entry has its first index above its second, a
    round keeps the pairs of the entries that survive it, and the merge of
    a round is made of the two indices of the entry it selected. *)
Theorem C9_merge_left_greater vecs :
  (Forall allocated vecs -> 1 <= len vecs -> is_Some (Cluster vecs)) /\
  (forall merges, Cluster vecs = Some merges ->
     Forall (fun m => Right m < Left m) merges) /\
  (forall r st, 0 <= r <= len vecs - 1 -> boundary vecs r = Some st ->
     Forall (fun e => sim_j e < sim_i e) (c_sims st) /\
     Forall (fun m => Right m < Left m) (c_merges st)) /\
  (forall r st st', 0 <= r < len vecs - 1 ->
     boundary vecs r = Some st -> boundary vecs (r + 1) = Some st' ->
     exists m, m ∈ c_sims st /\
       c_merges st' = c_merges st ++ [mkMerge (sim_i m) (sim_j m)] /\
       pair_of <$> c_sims st' =
         filter (fun p : Z * Z => p.1 ≠ sim_j m /\ p.2 ≠ sim_j m)
                (pair_of <$> c_sims st)).
Proof.
  split; [apply Cluster_total|]. split; [|split].
  - intros merges (_ & Horder & _)%Cluster_merges.
    eapply Forall_impl; [done|]. simpl. intros m. lia.
  - intros r st Hr Hst. pose proof (boundary_invariant_Z _ _ _ Hr Hst) as Hinv.
    split; [by eapply invariant_sims_lt|].
    destruct Hinv as [_ _ _ _ _ Horder].
    eapply Forall_impl; [done|]. simpl. intros m. lia.
  - intros r st st' Hr Hst Hst'.
    destruct (boundary_round _ _ _ _ Hr Hst Hst')
      as (m & a & b & a' & Hm & _ & _ & _ & _ & _ & _ & ->).
    exists m. split; [by apply select_in|]. split; [done|].
    unfold next. cbn [c_sims]. apply pair_of_update_spec.
Qed.

Lemma C9_merge_left_greater_witness :
  Cluster [NewVec ["a"]; NewVec ["b"]; NewVec ["a"; "b"]] =
    Some [mkMerge 2 0; mkMerge 2 1] /\
  Forall (fun m => Right m < Left m) [mkMerge 2 0; mkMerge 2 1].
Proof.
  assert (Cluster [NewVec ["a"]; NewVec ["b"]; NewVec ["a"; "b"]] =
          Some [mkMerge 2 0; mkMerge 2 1]) as H by (vm_compute; reflexivity).
  split; [exact H|].
  exact (proj1 (proj2 (C9_merge_left_greater _)) _ H).
Defined.

Lemma elem_of_update_spec vecs m sims e' :
  e' ∈ update_spec vecs m sims <->
  exists e, e ∈ sims /\ refers (sim_j m) e = false /\
            e' = if refers (sim_i m) e then recompute vecs e else e.
Proof.
  unfold update_spec. rewrite list_elem_of_fmap. split.
  - intros (e & -> & [? ?]%list_elem_of_filter). eauto.
  - intros (e & ? & ? & ->). exists e. split; [done|].
    by apply list_elem_of_filter.
Qed.

(** C5.  At every round boundary the similarity collection holds exactly one
    entry per unordered pair of active clusters.  A round that absorbs [j]
    into [i] drops the entries that refer to [j], recomputes those that
    refer to [i] against the vectors after the merge, and carries the others
    over with their pair and their value. *)
Theorem C5_similarity_matrix vecs r :
  0 <= r <= len vecs - 1 ->
  (Forall allocated vecs -> is_Some (boundary vecs r)) /\
  forall st, boundary vecs r = Some st ->
    one_entry_per_pair (active (len vecs) (c_merges st)) (c_sims st) /\
    forall st', r < len vecs - 1 -> boundary vecs (r + 1) = Some st' ->
      exists m a b a',
        m ∈ c_sims st /\
        index (c_vecs st) (sim_i m) = Some a /\
        index (c_vecs st) (sim_j m) = Some b /\
        Add a b = Some a' /\
        c_vecs st' = <[Z.to_nat (sim_i m) := a']> (c_vecs st) /\
        c_merges st' = c_merges st ++ [mkMerge (sim_i m) (sim_j m)] /\
        c_sims st' = update_spec (c_vecs st') m (c_sims st) /\
        (forall e', e' ∈ c_sims st' -> refers (sim_j m) e' = false) /\
        (forall e, e ∈ c_sims st -> refers (sim_j m) e = false ->
           refers (sim_i m) e = true ->
           {| sim_i := sim_i e; sim_j := sim_j e;
              sim_val := sim_of (c_vecs st') (sim_i e) (sim_j e) |} ∈ c_sims st') /\
        (forall e, e ∈ c_sims st -> refers (sim_j m) e = false ->
           refers (sim_i m) e = false -> e ∈ c_sims st').
Proof.
  intros Hr. split; [intros; by apply boundary_total_Z|].
  intros st Hst. pose proof (boundary_invariant_Z _ _ _ Hr Hst) as Hinv.
  split.
  { destruct Hinv as [_ Hsims _ _ _ _].
    apply all_pairs_one_entry; [apply active_sorted|apply active_NoDup|done]. }
  intros st' Hr' Hst'.
  destruct (boundary_round vecs r st st' ltac:(lia) Hst Hst')
    as (m & a & b & a' & Hm & Ha & Hb & Hadd & _ & _ & _ & ->).
  exists m, a, b, a'. unfold next. cbn [c_vecs c_sims c_merges].
  split; [by apply select_in|]. do 6 (split; [done|]). split; [|split].
  - intros e' (e & _ & He & ->)%elem_of_update_spec.
    by destruct (refers (sim_i m) e).
  - intros e He Hj Hi. apply elem_of_update_spec. exists e. by rewrite Hi.
  - intros e He Hj Hi. apply elem_of_update_spec. exists e. by rewrite Hi.
Qed.

Lemma C5_similarity_matrix_witness :
  exists st st',
    boundary [NewVec ["a"]; NewVec ["b"]; NewVec ["a"; "b"]] 0 = Some st /\
    boundary [NewVec ["a"]; NewVec ["b"]; NewVec ["a"; "b"]] (0 + 1) = Some st' /\
    one_entry_per_pair (active 3 (c_merges st)) (c_sims st) /\
    (pair_of <$> c_sims st) = [(1, 0); (2, 0); (2, 1)] /\
    (pair_of <$> c_sims st') = [(2, 1)].
Proof.
  pose proof (C5_similarity_matrix
                [NewVec ["a"]; NewVec ["b"]; NewVec ["a"; "b"]] 0
                ltac:(vm_compute; split; discriminate)) as [_ H].
  destruct (boundary [NewVec ["a"]; NewVec ["b"]; NewVec ["a"; "b"]] 0)
    as [st|] eqn:Hst; [|vm_compute in Hst; discriminate].
  destruct (boundary [NewVec ["a"]; NewVec ["b"]; NewVec ["a"; "b"]] (0 + 1))
    as [st'|] eqn:Hst'; [|vm_compute in Hst'; discriminate].
  exists st, st'. split; [done|]. split; [done|].
  split; [exact (proj1 (H st eq_refl))|].
  vm_compute in Hst, Hst'. injection Hst as <-. injection Hst' as <-.
  split; reflexivity.
Defined.



(** ** The interpreter *)

Lemma index_members (members : Z -> list Z) n i :
  index (members <$> seqZ 0 n) i =
  if decide (0 <= i < n) then Some (members i) else None.
Proof.
  unfold index. destruct (Z.ltb_spec i 0).
  { by rewrite decide_False by lia. }
  rewrite list_lookup_fmap. case_decide.
  - rewrite lookup_seqZ_lt by lia. simpl. f_equal. f_equal. lia.
  - by rewrite lookup_seqZ_ge by lia.
Qed.

Lemma store_members (members : Z -> list Z) n merge :
  0 <= Left merge < n ->
  store (members <$> seqZ 0 n) (Left merge)
        (members (Left merge) ++ members (Right merge)) =
  Some (absorb members merge <$> seqZ 0 n).
Proof.
  intros Hl. unfold store, len. rewrite length_fmap, length_seqZ.
  destruct (Z.leb_spec 0 (Left merge)), (Z.ltb_spec (Left merge) (Z.of_nat (Z.to_nat n)));
    try lia.
  simpl. f_equal. apply list_eq. intros k.
  rewrite list_lookup_fmap.
  destruct (decide (k = Z.to_nat (Left merge))) as [->|Hk].
  - rewrite list_lookup_insert_eq by (rewrite length_fmap, length_seqZ; lia).
    rewrite lookup_seqZ_lt by lia. simpl. unfold absorb.
    by rewrite decide_True by lia.
  - rewrite list_lookup_insert_ne by done. rewrite list_lookup_fmap.
    destruct (seqZ 0 n !! k) as [i|] eqn:Hi; [|done]. simpl.
    apply lookup_seqZ in Hi as [-> ?]. unfold absorb.
    by rewrite decide_False by lia.
Qed.

(** One iteration of the loop of [Interpret] against the specification. *)
Lemma interpret_step_spec total n members flagged merge :
  interpret_step total (members <$> seqZ 0 n, flagged) merge =
  if decide (in_range n merge)
  then Some (absorb members merge <$> seqZ 0 n,
             flagged ++ flags total members merge)
  else None.
Proof.
  unfold interpret_step, in_range. rewrite !index_members.
  destruct (decide (0 <= Left merge < n)) as [Hl|Hl]; cbn [mbind option_bind].
  2: { by rewrite decide_False by tauto. }
  destruct (decide (0 <= Right merge < n)) as [Hr|Hr]; cbn [mbind option_bind].
  2: { by rewrite decide_False by tauto. }
  rewrite decide_True by done. rewrite store_members by done.
  cbn [mbind option_bind]. do 2 f_equal. unfold flags.
  destruct (Z.ltb_spec 3 (len (members (Left merge)))),
           (Z.ltb_spec 3 (len (members (Right merge)))); simpl;
    [|rewrite decide_False by lia; by rewrite app_nil_r..].
  rewrite decide_True by done.
  destruct (Z.ltb_spec (len (members (Left merge))) (total `quot` 2)),
           (Z.ltb_spec (len (members (Right merge))) (total `quot` 2));
    repeat case_decide; try lia; by rewrite <- ?app_assoc, ?app_nil_r.
Qed.

Lemma interpret_loop total n merges : forall members flagged,
  foldlM (interpret_step total) (members <$> seqZ 0 n, flagged) merges =
  if decide (Forall (in_range n) merges)
  then Some (foldl absorb members merges <$> seqZ 0 n,
             flagged ++ flagged_from total members merges)
  else None.
Proof.
  induction merges as [|merge merges IH]; intros members flagged; cbn [foldlM].
  { rewrite decide_True by constructor. simpl. by rewrite app_nil_r. }
  rewrite interpret_step_spec.
  destruct (decide (in_range n merge)) as [Hm|Hm]; cbn [mbind option_bind].
  - rewrite IH. destruct (decide (Forall (in_range n) merges)) as [Hms|Hms].
    + rewrite decide_True by (by constructor). simpl. by rewrite <- app_assoc.
    + rewrite decide_False; [done|]. by intros [? ?]%Forall_cons.
  - rewrite decide_False; [done|]. by intros [? ?]%Forall_cons.
Qed.

(** [Interpret] computes the flagged list of the specification, and panics
    exactly on the sequences that name an index out of range. *)
Lemma Interpret_refines merges :
  Interpret merges =
  if decide (wf_merges merges) then Some (Interpret_spec merges) else None.
Proof.
  unfold Interpret, wf_merges, Interpret_spec.
  change (fun i : Z => [i]) with singleton_members.
  rewrite interpret_loop. by destruct (decide _).
Qed.

Lemma elem_of_flags total members merge f :
  f ∈ flags total members merge <->
  (f = members (Left merge) \/ f = members (Right merge)) /\
  3 < len (members (Left merge)) /\ 3 < len (members (Right merge)) /\
  len f < total `quot` 2.
Proof.
  unfold flags. case_decide as Hboth.
  - rewrite elem_of_app. split.
    + intros [Hf|Hf]; case_decide; try (by apply elem_of_nil in Hf);
        apply list_elem_of_singleton in Hf as ->; intuition.
    + intros ([-> | ->] & _ & _ & Hlt); [left|right];
        rewrite decide_True by done; apply list_elem_of_here.
  - split; [by intros ?%elem_of_nil|]. intros (_ & ? & ? & _). tauto.
Qed.

(** What is flagged: a side of a merge, as it was before the merge, when
    both sides had more than three members and the side fewer than
    [total / 2]. *)
Lemma elem_of_flagged_from total merges : forall members f,
  f ∈ flagged_from total members merges <->
  exists (k : nat) merge,
    merges !! k = Some merge /\
    let before := foldl absorb members (take k merges) in
    (f = before (Left merge) \/ f = before (Right merge)) /\
    3 < len (before (Left merge)) /\ 3 < len (before (Right merge)) /\
    len f < total `quot` 2.
Proof.
  induction merges as [|m merges IH]; intros members f; simpl.
  { split; [by intros ?%elem_of_nil|]. by intros (k & ? & ? & _). }
  rewrite elem_of_app, elem_of_flags, IH. split.
  - intros [H|(k & merge & Hk & H)].
    + exists 0%nat, m. done.
    + exists (S k), merge. done.
  - intros ([|k] & merge & Hk & H); simpl in *.
    + left. by injection Hk as <-.
    + right. eauto.
Qed.

Lemma flagged_from_bounds total members merges f :
  f ∈ flagged_from total members merges -> 3 < len f < total `quot` 2.
Proof.
  intros (k & merge & _ & [-> | ->] & ? & ? & ?)%elem_of_flagged_from; lia.
Qed.

(** A list with fewer members than there are indices misses an index. *)
Lemma not_all_inclusive (n : Z) (f : list Z) :
  len f < n -> exists i, 0 <= i < n /\ i ∉ f.
Proof.
  intros Hlen.
  destruct (decide (Forall (fun i => i ∈ f) (seqZ 0 n))) as [Hall|Hnot].
  - exfalso. rewrite Forall_forall in Hall.
    pose proof (NoDup_submseteq (seqZ 0 n) f (NoDup_seqZ 0 n) Hall) as Hsub.
    apply submseteq_length in Hsub. rewrite length_seqZ in Hsub.
    unfold len in Hlen. lia.
  - apply not_Forall_Exists in Hnot; [|apply _].
    apply Exists_exists in Hnot as (i & Hi%elem_of_seqZ & Hif).
    exists i. split; [lia|done].
Qed.

Lemma quot_2_le (n : Z) : 0 <= n -> n `quot` 2 <= n.
Proof.
  intros Hn. rewrite Z.quot_div_nonneg by lia.
  apply Z.div_le_upper_bound; lia.
Qed.

(** ** The claims about [Interpret] *)

(** C3.  [Interpret] walks the merges in order and flags a side exactly when
    both sides have more than three members and the side has fewer than
    [len(merges) / 2] (integer division), the left side before the right
    one; so no flagged list has three members or fewer, none holds every
    index (the all-inclusive cluster is never flagged), and the empty
    sequence gives the empty flagged list.  A sequence that names an index
    outside [0 .. len(merges)] makes [Interpret] panic. *)
Theorem C3_Interpret_flags merges :
  Interpret merges =
    (if decide (wf_merges merges) then Some (Interpret_spec merges) else None) /\
  (forall f, f ∈ Interpret_spec merges <->
     exists (k : nat) merge,
       merges !! k = Some merge /\
       let before := members_before merges k in
       (f = before (Left merge) \/ f = before (Right merge)) /\
       3 < len (before (Left merge)) /\ 3 < len (before (Right merge)) /\
       len f < len merges `quot` 2) /\
  (forall f, f ∈ Interpret_spec merges ->
     3 < len f /\ len f < len merges `quot` 2 /\
     exists i, 0 <= i < len merges + 1 /\ i ∉ f) /\
  Interpret [] = Some [].
Proof.
  split; [apply Interpret_refines|]. split; [|split; [|done]].
  - intros f. apply elem_of_flagged_from.
  - intros f Hf%flagged_from_bounds. split; [lia|]. split; [lia|].
    apply not_all_inclusive.
    pose proof (quot_2_le (len merges) (len_nonneg _)). lia.
Qed.

Lemma Interpret_spec_small merges : len merges <= 9 -> Interpret_spec merges = [].
Proof.
  intros Hlen. destruct (Interpret_spec merges) as [|f fs] eqn:Heq; [done|].
  assert (f ∈ Interpret_spec merges) as Hf%flagged_from_bounds
    by (rewrite Heq; apply list_elem_of_here).
  assert (len merges `quot` 2 < 5); [|lia].
  pose proof (len_nonneg merges).
  rewrite Z.quot_div_nonneg by lia. apply Z.div_lt_upper_bound; lia.
Qed.

Lemma Cluster_wf_merges vecs merges : Cluster vecs = Some merges -> wf_merges merges.
Proof.
  intros (Hlen & Horder & _)%Cluster_merges. unfold wf_merges, in_range.
  eapply Forall_impl; [done|]. simpl. intros m. lia.
Qed.

(** C10.  A merge sequence of length at most 9 flags nothing: a flagged side
    needs more than 3 and fewer than [len(merges) / 2 <= 4] members.  So
    [Interpret] returns the empty list on it (or panics, if it names an
    index out of range), and clustering fewer than 11 vectors never gives a
    flagged cluster. *)
Theorem C10_nothing_flagged_below_eleven :
  (forall merges, len merges <= 9 ->
     Interpret_spec merges = [] /\
     Interpret merges = (if decide (wf_merges merges) then Some [] else None) /\
     (wf_merges merges -> Interpret merges = Some [])) /\
  (forall vecs merges, len vecs < 11 -> Cluster vecs = Some merges ->
     Interpret merges = Some []).
Proof.
  assert (forall merges, len merges <= 9 ->
            Interpret merges = if decide (wf_merges merges) then Some [] else None)
    as Hsmall.
  { intros merges Hlen. by rewrite Interpret_refines, Interpret_spec_small. }
  split.
  - intros merges Hlen. split; [by apply Interpret_spec_small|].
    split; [by apply Hsmall|]. intros Hwf. by rewrite Hsmall, decide_True.
  - intros vecs merges Hn Hc.
    pose proof (Cluster_wf_merges _ _ Hc) as Hwf.
    apply Cluster_merges in Hc as (Hlen & _).
    rewrite Hsmall by lia. by rewrite decide_True.
Qed.

Lemma C10_nothing_flagged_below_eleven_witness :
  len [mkMerge 1 0; mkMerge 2 1] <= 9 /\
  Interpret [mkMerge 1 0; mkMerge 2 1] = Some [] /\
  Interpret ((fun k => mkMerge (k + 1) k) <$> seqZ 0 9) = Some [].
Proof.
  split; [vm_compute; discriminate|]. split.
  - apply (proj1 C10_nothing_flagged_below_eleven [mkMerge 1 0; mkMerge 2 1]).
    + vm_compute; discriminate.
    + repeat constructor; vm_compute; discriminate.
  - apply (proj1 C10_nothing_flagged_below_eleven).
    + vm_compute; discriminate.
    + unfold wf_merges. apply Forall_forall.
      intros m (k & -> & Hk%elem_of_seqZ)%list_elem_of_fmap.
      unfold in_range. simpl. change (len _) with 9. lia.
Defined.

(** ** Term vectors *)

Lemma wrap_in_int z : in_int z -> wrap z = z.
Proof.
  unfold in_int, min_int, max_int, wrap. intros ?.
  rewrite Z.mod_small by lia. lia.
Qed.





Lemma map_get_lookup (m : gomap) key : map_get m key = default 0 (map_lookup m key).
Proof. by destruct m. Qed.





Lemma Renorm_idempotent v : Renorm (Renorm v) = Renorm v.
Proof. done. Qed.

(** The map that [NewVec] builds counts the occurrences of every token. *)
Lemma NewVec_loop list : forall g : gmap string Z,
  (forall key, 0 <= default 0 (g !! key) /\ default 0 (g !! key) + len list <= max_int) ->
  forall key,
    default 0 (foldl (fun m key => <[key := int_add (default 0 (m !! key)) 1]> m) g list
               !! key) =
    default 0 (g !! key) + occurrences key list.
Proof.
  unfold occurrences.
  induction list as [|x list IH]; intros g Hg key; simpl.
  { unfold len. simpl. lia. }
  assert (forall k, in_int (default 0 (g !! k) + 1)) as Hfit.
  { intros k. specialize (Hg k). unfold in_int, min_int, max_int, len in *.
    simpl length in Hg. lia. }
  rewrite IH.
  - rewrite filter_cons. destruct (decide (key = x)) as [->|Hne].
    + rewrite lookup_insert_eq, decide_True by done. simpl.
      unfold int_add. rewrite wrap_in_int by done. unfold len. simpl length. lia.
    + rewrite lookup_insert_ne by done. by rewrite decide_False by done.
  - intros k. specialize (Hg k). specialize (Hfit k).
    unfold len in *. simpl length in Hg.
    destruct (decide (k = x)) as [->|Hne].
    + rewrite lookup_insert_eq. simpl. unfold int_add.
      rewrite wrap_in_int by done. lia.
    + rewrite lookup_insert_ne by done. lia.
Qed.

Lemma occurrences_bounds key list : 0 <= occurrences key list <= len list.
Proof.
  unfold occurrences, len. pose proof (length_filter (fun x => x = key) list). lia.
Qed.

Lemma NewVec_counts list key :
  len list <= max_int ->
  map_get (M (NewVec list)) key = occurrences key list.
Proof.
  intros Hlen. unfold NewVec. simpl. rewrite NewVec_loop.
  - by rewrite lookup_empty.
  - intros k. rewrite lookup_empty. simpl. split; [done|lia].
Qed.




Lemma NewVec_allocated list : allocated (NewVec list).
Proof. unfold allocated, NewVec. simpl. eauto. Qed.

(** ** The claims about the term vectors *)



(** C7 (code defect).  The specification, like the comment of [Sim], keeps
    the cosine of vectors with nonnegative counts within [0, 1].  [Sim]
    divides [Dot] by the rounded product of the two rounded norms, and for
    the vector of the tokens a, b, c with itself that is
    3 / (sqrt 3 * sqrt 3) = 3 / 2.9999999999999996 = 1.0000000000000002.
    (That [Sim] is 0 when a norm is 0 holds: [Sim_zero_norm].) *)
Theorem C7_Sim_exceeds_one :
  let a := NewVec ["a"; "b"; "c"] in
  (map_get (M a) "a", map_get (M a) "b", map_get (M a) "c") = (1, 1, 1) /\
  map_len (M a) = 3 /\
  Dot a a = 3%float /\
  Length a = 0x1.bb67ae8584caap+0%float /\
  PrimFloat.mul (Length a) (Length a) = 0x1.7ffffffffffffp+1%float /\
  Sim a a = 0x1.0000000000001p+0%float /\
  PrimFloat.ltb 1%float (Sim a a) = true /\
  PrimFloat.leb (Sim a a) 1%float = false.
Proof. repeat split; vm_compute; reflexivity. Qed.

(** [Sim] is 0 as soon as the norm of an operand is 0. *)
Lemma Sim_zero_norm a b :
  PrimFloat.eqb (Length a) 0%float = true \/ PrimFloat.eqb (Length b) 0%float = true ->
  Sim a b = 0%float /\ Sim b a = 0%float.
Proof.
  unfold Sim. intros [H|H]; rewrite H; by rewrite ?orb_true_r.
Qed.

(** [Sim] of two vectors with numbers for norms, neither of them 0, is the
    quotient of [Dot] by the product of the norms. *)
Lemma Sim_quotient a b :
  PrimFloat.eqb (Length a) 0%float = false ->
  PrimFloat.eqb (Length b) 0%float = false ->
  Sim a b = PrimFloat.div (Dot a b) (PrimFloat.mul (Length a) (Length b)).
Proof. unfold Sim. by intros -> ->. Qed.

(** * Further properties of the package *)

(** ** [NewVec], [Add] and [Dot] *)

Lemma NewVec_loop_keys list : forall (g : gmap string Z) key,
  is_Some (foldl (fun m key => <[key := int_add (default 0 (m !! key)) 1]> m) g list
           !! key) <->
  is_Some (g !! key) \/ key ∈ list.
Proof.
  induction list as [|x list IH]; intros g key; simpl.
  { split; [by left|]. by intros [?|?%elem_of_nil]. }
  rewrite IH, elem_of_cons. destruct (decide (key = x)) as [->|Hne].
  - rewrite lookup_insert_eq. split; [intros _; right; by left|eauto].
  - rewrite lookup_insert_ne by done. tauto.
Qed.

Lemma NewVec_lookup list key :
  len list <= max_int ->
  map_lookup (M (NewVec list)) key =
  if decide (key ∈ list) then Some (occurrences key list) else None.
Proof.
  intros Hlen. pose proof (NewVec_counts list key Hlen) as Hc.
  pose proof (NewVec_loop_keys list ∅ key) as Hk.
  unfold NewVec in *. cbn [M Renorm map_get map_lookup mbind option_bind] in *.
  set (g := foldl _ ∅ list) in *. rewrite lookup_empty in Hk.
  case_decide as Hin.
  - destruct (g !! key) as [v|] eqn:Hv; [by simpl in Hc; subst|].
    exfalso. apply (is_Some_None (A := Z)). apply Hk. by right.
  - destruct (g !! key) as [v|] eqn:Hv; [|done].
    exfalso. destruct Hk as [[[? [=]]|?] _]; eauto.
Qed.

(** X1.  [NewVec] counts the tokens: the map it builds has an entry exactly
    for the strings of the list, each with the number of its occurrences,
    which is at least 1; the other strings read as 0. *)
Theorem NewVec_counts_tokens list key :
  len list <= max_int ->
  allocated (NewVec list) /\
  (key ∈ list ->
     map_lookup (M (NewVec list)) key = Some (occurrences key list) /\
     1 <= occurrences key list <= len list) /\
  (key ∉ list ->
     map_lookup (M (NewVec list)) key = None /\
     map_get (M (NewVec list)) key = 0).
Proof.
  intros Hlen. split; [apply NewVec_allocated|].
  pose proof (NewVec_lookup list key Hlen) as Hl. split.
  - intros Hin. rewrite decide_True in Hl by done. split; [done|].
    pose proof (occurrences_bounds key list). split; [|lia].
    unfold occurrences, len.
    assert (key ∈ filter (fun x => x = key) list) as Hf
      by (by apply list_elem_of_filter).
    destruct (filter _ list); [by apply elem_of_nil in Hf|]. simpl. lia.
  - intros Hin. rewrite decide_False in Hl by done. split; [done|].
    by rewrite map_get_lookup, Hl.
Qed.

Lemma NewVec_counts_tokens_witness :
  map_lookup (M (NewVec ["a"; "b"; "a"])) "a" = Some 2 /\
  map_lookup (M (NewVec ["a"; "b"; "a"])) "c" = None.
Proof.
  assert (len ["a"; "b"; "a"] <= max_int) as Hlen by (vm_compute; discriminate).
  destruct (NewVec_counts_tokens ["a"; "b"; "a"] "a" Hlen) as (_ & Hin & _).
  destruct (NewVec_counts_tokens ["a"; "b"; "a"] "c" Hlen) as (_ & _ & Hout).
  split.
  - apply Hin. apply list_elem_of_here.
  - apply Hout. intros H. vm_compute in H.
    repeat (apply elem_of_cons in H as [H|H]; [discriminate|]).
    by apply elem_of_nil in H.
Defined.


Lemma occurrences_0 key list : key ∉ list -> occurrences key list = 0.
Proof.
  intros Hin. unfold occurrences, len.
  destruct (filter _ list) as [|x l] eqn:Hf; [done|].
  assert (x ∈ filter (fun y => y = key) list) as [-> ?]%list_elem_of_filter
    by (rewrite Hf; apply list_elem_of_here).
  done.
Qed.



(** X3.  [Add] panics exactly when the map of its receiver is nil and its
    argument has an entry to add; with nothing to add it only renormalises. *)
Theorem Add_panics_on_nil_map a b :
  (Add a b = None <-> M a = None /\ map_range (M b) <> []) /\
  (map_range (M b) = [] -> Add a b = Some (Renorm a)).
Proof.
  split.
  - split.
    + intros Hadd. destruct (M a) as [g|] eqn:Hg.
      * destruct (Add_allocated a b) as (a' & Ha' & _); [unfold allocated; by rewrite Hg|].
        congruence.
      * split; [done|]. intros Hb. unfold Add in Hadd. by rewrite Hb in Hadd.
    + intros [Ha Hb]. unfold Add. rewrite Ha.
      destruct (map_range (M b)) as [|kv l]; done.
  - intros Hb. unfold Add. rewrite Hb. simpl. by destruct a.
Qed.

Lemma float64_of_int_0 : float64_of_int 0 = 0%float.
Proof. reflexivity. Qed.

Lemma Dot_loop_zero (ma mb : gomap) (l : list (string * Z)) :
  (forall key, map_get ma key = 0 \/ map_get mb key = 0) ->
  foldl (fun sum kv =>
           PrimFloat.add sum
             (float64_of_int (int_mul (map_get ma kv.1) (map_get mb kv.1))))
        0%float l = 0%float.
Proof.
  intros H. induction l as [|[k v] l IH]; simpl; [done|].
  assert (int_mul (map_get ma k) (map_get mb k) = 0) as ->.
  { unfold int_mul. destruct (H k) as [-> | ->];
      rewrite ?Z.mul_0_l, ?Z.mul_0_r; done. }
  exact IH.
Qed.

(** X4.  The inner product of two vectors without a common token is 0:
    whenever every token has count 0 on one side, [Dot] returns 0. *)
Theorem Dot_disjoint a b :
  (forall key, map_get (M a) key = 0 \/ map_get (M b) key = 0) ->
  Dot a b = 0%float /\ Dot b a = 0%float.
Proof.
  intros H. unfold Dot. split.
  - destruct (map_len (M b) <? map_len (M a)); apply Dot_loop_zero;
      intros key; specialize (H key); tauto.
  - destruct (map_len (M a) <? map_len (M b)); apply Dot_loop_zero;
      intros key; specialize (H key); tauto.
Qed.

Lemma Dot_disjoint_witness :
  Dot (NewVec ["a"; "a"]) (NewVec ["b"]) = 0%float /\
  Dot (NewVec ["b"]) (NewVec ["a"; "a"]) = 0%float.
Proof.
  apply (Dot_disjoint (NewVec ["a"; "a"]) (NewVec ["b"])).
  intros key. rewrite !NewVec_counts by (vm_compute; discriminate).
  destruct (decide (key = "b")) as [->|Hne].
  - left. reflexivity.
  - right. apply occurrences_0. by intros ?%list_elem_of_singleton.
Defined.

(** X5.  A vector without entries (an empty or a nil map) has norm 0 once
    renormalised, and its similarity to every vector is 0, whatever the
    other vector holds: [NewVec] of the empty token list is such a vector. *)
Theorem Sim_empty_vector v b :
  map_range (M v) = [] ->
  Length (Renorm v) = 0%float /\
  Sim (Renorm v) b = 0%float /\ Sim b (Renorm v) = 0%float.
Proof.
  intros Hv.
  assert (Length (Renorm v) = 0%float) as Hl by (unfold Renorm; by rewrite Hv).
  split; [done|]. unfold Sim. rewrite Hl.
  change (PrimFloat.eqb 0 0) with true. by rewrite orb_true_r.
Qed.

Lemma Sim_empty_vector_witness :
  Sim (NewVec []) (NewVec ["a"]) = 0%float /\
  Sim (NewVec ["a"]) (NewVec []) = 0%float.
Proof.
  exact (proj2 (Sim_empty_vector (mkVec (Some ∅) 0%float) (NewVec ["a"]) eq_refl)).
Defined.

(** ** [Cluster]: what holds at every round boundary *)

(** Induction over the round boundaries that [Cluster] reaches. *)
Lemma boundary_ind vecs (P : Z -> state -> Prop) :
  (1 <= len vecs ->
   P 0 {| c_vecs := vecs;
          c_sims := recompute vecs <$> rows (seqZ 0 (len vecs));
          c_merges := [] |}) ->
  (forall r st m a b a',
     0 <= r < len vecs - 1 -> boundary vecs r = Some st -> P r st ->
     select (c_sims st) = Some m ->
     index (c_vecs st) (sim_i m) = Some a ->
     index (c_vecs st) (sim_j m) = Some b ->
     Add a b = Some a' ->
     sim_i m ∈ active (len vecs) (c_merges st) ->
     sim_j m ∈ active (len vecs) (c_merges st) ->
     sim_j m < sim_i m ->
     P (r + 1) (next st m a')) ->
  forall r st, 0 <= r <= len vecs - 1 -> boundary vecs r = Some st -> P r st.
Proof.
  intros H0 HS r st Hr. rewrite <- (Z2Nat.id r) in * by lia.
  revert st Hr. induction (Z.to_nat r) as [|k IH]; intros st Hr Hst.
  - unfold boundary in Hst. rewrite init_spec in Hst by lia. simpl in Hst.
    injection Hst as <-. apply H0. lia.
  - pose proof Hst as Hst'. rewrite boundary_S in Hst.
    destruct (boundary vecs (Z.of_nat k)) as [st0|] eqn:Hst0; [|done].
    replace (Z.of_nat (S k)) with (Z.of_nat k + 1) in * by lia.
    destruct (boundary_round vecs (Z.of_nat k) st0 st ltac:(lia) Hst0 Hst')
      as (m & a & b & a' & Hm & Ha & Hb & Hadd & Hi & Hj & Hlt & ->).
    eapply HS; eauto; [lia|]. apply IH; [lia|done].
Qed.

(** X6.  On one or more vectors with allocated maps [Cluster] never panics:
    it returns [n - 1] merges, every merge has [0 <= Right < Left < n], and
    the absorbed indices are all the indices but one survivor, each once. *)
Theorem Cluster_dendrogram vecs :
  Forall allocated vecs -> 1 <= len vecs ->
  exists merges survivor,
    Cluster vecs = Some merges /\
    len merges = len vecs - 1 /\
    Forall (fun m => 0 <= Right m < Left m /\ Left m < len vecs) merges /\
    survivor :: (Right <$> merges) ≡ₚ seqZ 0 (len vecs) /\
    NoDup (Right <$> merges) /\ survivor ∉ (Right <$> merges).
Proof.
  intros Halloc Hn. destruct (Cluster_total vecs Halloc Hn) as [merges Hc].
  destruct (Cluster_merges _ _ Hc) as (Hlen & Horder & s & Hperm).
  exists merges, s. repeat (split; [done|]).
  assert (NoDup (s :: (Right <$> merges))) as [? ?]%NoDup_cons; [|done].
  rewrite Hperm. apply NoDup_seqZ.
Qed.

Lemma Cluster_dendrogram_witness :
  exists merges survivor,
    Cluster [NewVec ["a"]; NewVec ["b"]; NewVec ["a"; "b"]] = Some merges /\
    len merges = 2 /\
    survivor :: (Right <$> merges) ≡ₚ [0; 1; 2].
Proof.
  destruct (Cluster_dendrogram [NewVec ["a"]; NewVec ["b"]; NewVec ["a"; "b"]])
    as (merges & s & Hc & Hlen & _ & Hperm & _).
  - repeat constructor; apply NewVec_allocated.
  - vm_compute. discriminate.
  - exists merges, s. split; [exact Hc|]. split; [exact Hlen|exact Hperm].
Defined.

Lemma fresh_snoc merges m :
  fresh merges ->
  Left m ∉ (Right <$> merges) -> Right m ∉ (Right <$> merges) ->
  fresh (merges ++ [m]).
Proof.
  intros Hf Hl Hr k m' Hk.
  destruct (decide (k < length merges)%nat) as [Hlt|Hge].
  - rewrite lookup_app_l in Hk by done. rewrite take_app_le by lia. by apply Hf.
  - rewrite lookup_app_r in Hk by lia.
    destruct (k - length merges)%nat as [|?] eqn:Hd; [|done].
    injection Hk as <-. assert (k = length merges) as -> by lia.
    by rewrite take_app_length.
Qed.

Lemma not_elem_of_active_rights n merges x :
  x ∈ active n merges -> x ∉ (Right <$> merges).
Proof. by intros [? _]%list_elem_of_filter. Qed.

Lemma Cluster_merges_fresh_lemma vecs merges :
  Cluster vecs = Some merges -> fresh merges.
Proof.
  intros (Hn & st & Hst & <- & _)%Cluster_boundary.
  revert Hst. apply (boundary_ind vecs (fun _ st => fresh (c_merges st))); [| |lia].
  - intros _ k m Hk. done.
  - intros r st0 m a b a' _ _ IH _ _ _ _ Hi Hj _. unfold next. cbn [c_merges].
    apply fresh_snoc; [done|simpl..]; by eapply not_elem_of_active_rights.
Qed.

(** X7.  A cluster that has been absorbed takes part in no later merge:
    both indices of every merge of [Cluster] are clusters that no earlier
    merge has absorbed. *)
Theorem Cluster_merges_fresh vecs merges :
  Cluster vecs = Some merges -> fresh merges.
Proof. apply Cluster_merges_fresh_lemma. Qed.

Lemma Cluster_merges_fresh_witness :
  fresh [mkMerge 2 0; mkMerge 2 1].
Proof.
  apply (Cluster_merges_fresh [NewVec ["a"]; NewVec ["b"]; NewVec ["a"; "b"]]).
  vm_compute. reflexivity.
Defined.

Lemma pairs_from_sorted seen rest :
  StronglySorted Z.lt (seen ++ rest) ->
  StronglySorted lex_lt (pairs_from seen rest).
Proof.
  revert seen. induction rest as [|x rest IH]; intros seen Hs; simpl.
  { constructor. }
  apply StronglySorted_app_2.
  - intros [a1 b1] [a2 b2] (y & [= -> ->] & Hy)%list_elem_of_fmap H2.
    pose proof (pairs_from_lt (seen ++ [x]) rest a2 b2) as Hlt.
    rewrite <- app_assoc in Hlt. specialize (Hlt Hs H2).
    apply elem_of_pairs_from in H2 as [Ha2 _].
    left. simpl.
    apply StronglySorted_app_1_r in Hs. apply StronglySorted_inv in Hs as [_ Hx].
    by eapply Forall_forall in Hx.
  - apply StronglySorted_app_1_l in Hs.
    induction Hs as [|y seen Hs IHs Hy]; simpl; [constructor|].
    constructor; [done|]. apply Forall_fmap, Forall_forall.
    intros z Hz. right. simpl. split; [done|].
    by eapply Forall_forall in Hy.
  - apply IH. by rewrite <- app_assoc.
Qed.

(** X8.  The order of the similarity entries does not depend on the history
    of the compactions: at every round boundary they are the pairs [(i, j)],
    [j < i], of the clusters not absorbed so far, in increasing
    lexicographic order, so after [r] rounds there are
    [(n - r) (n - r - 1) / 2] of them. *)
Theorem boundary_sims_in_order vecs r st :
  0 <= r <= len vecs - 1 -> boundary vecs r = Some st ->
  pair_of <$> c_sims st = all_pairs (active (len vecs) (c_merges st)) /\
  StronglySorted lex_lt (pair_of <$> c_sims st) /\
  2 * len (c_sims st) = (len vecs - r) * (len vecs - r - 1) /\
  len (c_merges st) = r /\
  len (c_vecs st) = len vecs.
Proof.
  intros Hr Hst.
  destruct (boundary_invariant_Z _ _ _ Hr Hst) as [Hv Hsims Hact Hm _ _].
  split; [done|]. split; [|split; [|done]].
  - rewrite Hsims. apply (pairs_from_sorted []). apply active_sorted.
  - pose proof (len_all_pairs (active (len vecs) (c_merges st))) as H.
    rewrite <- Hsims, len_fmap, Hact in H. lia.
Qed.

Lemma boundary_sims_in_order_witness :
  exists st,
    boundary [NewVec ["a"]; NewVec ["b"]; NewVec ["a"; "b"]; NewVec ["c"]] 1 = Some st /\
    pair_of <$> c_sims st = [(2, 1); (3, 1); (3, 2)].
Proof.
  destruct (boundary [NewVec ["a"]; NewVec ["b"]; NewVec ["a"; "b"]; NewVec ["c"]] 1)
    as [st|] eqn:Hst; [|vm_compute in Hst; discriminate].
  exists st. split; [reflexivity|].
  destruct (boundary_sims_in_order
              [NewVec ["a"]; NewVec ["b"]; NewVec ["a"; "b"]; NewVec ["c"]] 1 st
              ltac:(vm_compute; split; discriminate) Hst) as (-> & _).
  vm_compute in Hst. injection Hst as <-. vm_compute. reflexivity.
Defined.

Lemma index_insert_ne {A} (s : list A) i x (a : A) :
  x ≠ i -> 0 <= i -> index (<[Z.to_nat i := a]> s) x = index s x.
Proof.
  intros Hne Hi. unfold index. destruct (Z.ltb_spec x 0); [done|].
  apply list_lookup_insert_ne. lia.
Qed.




(** ** The dispatch of the tasks *)

(** X10.  The update loop never hands one slot to two tasks: for every
    slice and every selected entry it runs to its end, the slots it has
    dispatched are pairwise different, each lies below the cursor, which
    does not exceed the length of the slice, and each holds an entry that
    refers to the survivor, written with the value 0. *)
Theorem update_dispatches_distinct_slots maxsim sims :
  exists p,
    foldlM (update maxsim) (mkPool sims 0 []) (seqZ 0 (len sims)) = Some p /\
    NoDup (p_queue p) /\
    0 <= p_n p <= len sims /\
    len (p_sims p) = len sims /\
    forall n, n ∈ p_queue p ->
      0 <= n < p_n p /\
      exists e, index (p_sims p) n = Some e /\
                refers (sim_i maxsim) e = true /\ sim_val e = 0%float.
Proof.
  eexists. split; [apply update_loop_all|]. cbn [p_sims p_n p_queue].
  pose proof (length_kept_le maxsim sims) as Hle.
  split; [apply NoDup_dispatched|]. split; [unfold len; lia|]. split.
  { unfold len. rewrite length_app, length_drop. lia. }
  intros n (k & e & -> & Hk & He)%elem_of_dispatched.
  apply lookup_lt_Some in Hk as Hlt. split; [unfold len; lia|].
  exists e. rewrite Z.add_0_l, index_of_nat, lookup_app_l by done.
  split; [done|]. split; [done|].
  unfold kept in Hk. rewrite list_lookup_fmap in Hk.
  destruct (filter _ sims !! k) as [e0|]; [|done]. injection Hk as <-.
  rewrite refers_reset in He. unfold reset. by rewrite He.
Qed.

(** X11.  A task writes the value of its own slot and nothing else: when
    [worker] returns, the slice has the length it had, every other slot is
    as it was, and the slot of the task has kept its pair of indices and
    holds the similarity of the two vectors; it panics only on a slot or an
    index out of range. *)
Theorem worker_writes_its_slot vecs sims n :
  (forall sims', worker vecs sims n = Some sims' ->
     len sims' = len sims /\
     (forall k, k ≠ n -> index sims' k = index sims k) /\
     exists e a b,
       index sims n = Some e /\
       index vecs (sim_i e) = Some a /\ index vecs (sim_j e) = Some b /\
       index sims' n = Some (mkSim (sim_i e) (sim_j e) (Sim a b))) /\
  (worker vecs sims n = None <->
     match index sims n with
     | Some e => index vecs (sim_i e) = None \/ index vecs (sim_j e) = None
     | None => True
     end).
Proof.
  unfold worker. destruct (index sims n) as [e|] eqn:He; cbn [mbind option_bind].
  2: { split; [done|]. tauto. }
  apply index_lt in He as Hn.
  destruct (index vecs (sim_i e)) as [a|] eqn:Ha; cbn [mbind option_bind].
  2: { split; [done|]. tauto. }
  destruct (index vecs (sim_j e)) as [b|] eqn:Hb; cbn [mbind option_bind].
  2: { split; [done|]. tauto. }
  destruct (store_is_Some sims n (mkSim (sim_i e) (sim_j e) (Sim a b)) Hn) as [s Hs].
  rewrite Hs. split.
  - intros sims' [= <-]. apply store_Some in Hs as [_ ->].
    split; [unfold len; by rewrite length_insert|]. split.
    + intros k Hk. apply index_insert_ne; [done|lia].
    + exists e, a, b. repeat (split; [done|]).
      unfold index. destruct (Z.ltb_spec n 0); [lia|].
      apply list_lookup_insert_eq. unfold len in Hn. lia.
  - split; [done|]. by intros [?|?].
Qed.

Lemma worker_writes_its_slot_witness :
  worker [NewVec ["a"]; NewVec ["a"]] [mkSim 1 0 0%float] 0 =
    Some [mkSim 1 0 1%float] /\
  len [mkSim 1 0 1%float] = len [mkSim 1 0 0%float].
Proof.
  assert (worker [NewVec ["a"]; NewVec ["a"]] [mkSim 1 0 0%float] 0 =
          Some [mkSim 1 0 1%float]) as H by (vm_compute; reflexivity).
  split; [exact H|].
  exact (proj1 (proj1 (worker_writes_its_slot _ _ _) _ H)).
Defined.

(** ** The vectors after the merges *)















(** ** The flagged clusters *)

Lemma absorb_in_range n members merges :
  Forall (in_range n) merges ->
  (forall i, 0 <= i < n -> Forall (fun x => 0 <= x < n) (members i)) ->
  forall i, 0 <= i < n ->
    Forall (fun x => 0 <= x < n) (foldl absorb members merges i).
Proof.
  intros Hm. revert members. induction Hm as [|m merges [Hl Hr] _ IH];
    intros members Hmem; [done|].
  simpl. apply IH. intros i Hi. unfold absorb. case_decide; [|by apply Hmem].
  apply Forall_app. split; by apply Hmem.
Qed.

Lemma Interpret_flags_indices_lemma merges flagged :
  Interpret merges = Some flagged ->
  forall f x, f ∈ flagged -> x ∈ f -> 0 <= x < len merges + 1.
Proof.
  rewrite Interpret_refines. case_decide as Hwf; [|done]. intros [= <-] f x Hf Hx.
  apply elem_of_flagged_from in Hf as (k & m & Hk & Hside & _).
  assert (forall i, 0 <= i < len merges + 1 ->
            Forall (fun x => 0 <= x < len merges + 1)
                   (foldl absorb singleton_members (take k merges) i)) as Hall.
  { apply absorb_in_range; [by apply Forall_take|].
    intros i Hi. by apply Forall_singleton. }
  eapply Forall_lookup_1 in Hwf as [Hl Hr]; [|done].
  cbv zeta in Hside. destruct Hside as [-> | ->].
  - exact (proj1 (Forall_forall _ _) (Hall _ Hl) _ Hx).
  - exact (proj1 (Forall_forall _ _) (Hall _ Hr) _ Hx).
Qed.

(** X13.  What [Interpret] flags can be used to index the input: on a merge
    sequence with indices within [0 .. len(merges)], every member of every
    flagged list is such an index, so the look-up [names[user]] of
    [lj_cluster] stays within its slice of [len(merges) + 1] names. *)
Theorem Interpret_flags_indices merges flagged :
  Interpret merges = Some flagged ->
  forall f x, f ∈ flagged -> x ∈ f -> 0 <= x < len merges + 1.
Proof. apply Interpret_flags_indices_lemma. Qed.

Lemma partitioned_absorb retired members m :
  partitioned retired members ->
  Left m ∉ retired -> Right m ∉ retired -> Left m ≠ Right m ->
  partitioned (retired ++ [Right m]) (absorb members m).
Proof.
  intros Hp Hl Hr Hne x Hx.
  apply not_elem_of_app in Hx as [Hx HxR]. rewrite list_elem_of_singleton in HxR.
  destruct (Hp (Left m) Hl) as [HndL HdL]. destruct (Hp (Right m) Hr) as [HndR HdR].
  destruct (Hp x Hx) as [Hndx Hdx].
  split.
  - unfold absorb. case_decide as HxL; [|done]. subst x.
    apply NoDup_app. split; [done|]. split; [|done].
    intros z Hz. by apply HdL.
  - intros y Hy Hxy z Hz.
    apply not_elem_of_app in Hy as [Hy HyR]. rewrite list_elem_of_singleton in HyR.
    destruct (Hp y Hy) as [_ Hdy].
    unfold absorb in *. destruct (decide (x = Left m)) as [->|HxL].
    + rewrite decide_False by done.
      apply elem_of_app in Hz as [Hz|Hz]; [by apply HdL|by apply HdR].
    + destruct (decide (y = Left m)) as [->|HyL]; [|by apply Hdx].
      apply not_elem_of_app. split; by apply Hdx.
Qed.

Lemma partitioned_before merges (k : nat) :
  fresh merges -> Forall (fun m => Left m ≠ Right m) merges ->
  (k <= length merges)%nat ->
  partitioned (Right <$> take k merges) (members_before merges k).
Proof.
  intros Hf Hne. unfold members_before. induction k as [|k IH]; intros Hk.
  - rewrite take_0. intros x _. split; [apply NoDup_singleton|].
    intros y _ Hxy z ->%list_elem_of_singleton Hz%list_elem_of_singleton. done.
  - destruct (lookup_lt_is_Some_2 merges k) as [m Hm]; [lia|].
    rewrite (take_S_r _ _ _ Hm), foldl_snoc, fmap_app. simpl.
    destruct (Hf k m Hm) as [Hl Hr].
    apply partitioned_absorb; [apply IH; lia|done..|].
    by eapply Forall_lookup_1 in Hne.
Qed.

(** X14.  The clusters that [Interpret] flags for a dendrogram of [Cluster]
    are sets of input indices: no flagged list holds an index twice, and
    the two sides of one merge have no index in common. *)
Theorem Cluster_flagged_NoDup vecs merges flagged :
  Cluster vecs = Some merges -> Interpret merges = Some flagged ->
  Forall (fun f : list Z => NoDup f) flagged /\
  forall (k : nat) m, merges !! k = Some m ->
    forall z, z ∈ members_before merges k (Left m) ->
              z ∉ members_before merges k (Right m).
Proof.
  intros Hc Hi. pose proof (Cluster_merges_fresh_lemma _ _ Hc) as Hf.
  assert (Forall (fun m => Left m ≠ Right m) merges) as Hne.
  { apply Cluster_merges in Hc as (_ & Hord & _).
    eapply Forall_impl; [done|]. simpl. intros m. lia. }
  rewrite Interpret_refines in Hi. case_decide as Hwf; [|done].
  injection Hi as <-. split.
  - apply Forall_forall. intros f (k & m & Hk & Hside & _)%elem_of_flagged_from.
    apply lookup_lt_Some in Hk as Hlt.
    pose proof (partitioned_before merges k Hf Hne ltac:(lia)) as Hp.
    destruct (Hf k m Hk) as [Hl Hr].
    destruct Hside as [-> | ->]; by apply Hp.
  - intros k m Hk z Hz. apply lookup_lt_Some in Hk as Hlt.
    pose proof (partitioned_before merges k Hf Hne ltac:(lia)) as Hp.
    destruct (Hf k m Hk) as [Hl Hr].
    destruct (Hp (Left m) Hl) as [_ Hd]. apply Hd; [done| |done].
    by eapply Forall_lookup_1 in Hne.
Qed.

Lemma Cluster_two_groups :
  Cluster two_groups =
  Some [mkMerge 1 0; mkMerge 2 1; mkMerge 3 2; mkMerge 5 4; mkMerge 6 5;
        mkMerge 7 6; mkMerge 7 3; mkMerge 8 7; mkMerge 9 8; mkMerge 10 9].
Proof. vm_compute. reflexivity. Qed.

Lemma Interpret_two_groups :
  Interpret [mkMerge 1 0; mkMerge 2 1; mkMerge 3 2; mkMerge 5 4; mkMerge 6 5;
             mkMerge 7 6; mkMerge 7 3; mkMerge 8 7; mkMerge 9 8; mkMerge 10 9] =
  Some [[7; 6; 5; 4]; [3; 2; 1; 0]].
Proof. vm_compute. reflexivity. Qed.

Lemma Interpret_flags_indices_witness :
  Interpret [mkMerge 1 0; mkMerge 2 1; mkMerge 3 2; mkMerge 5 4; mkMerge 6 5;
             mkMerge 7 6; mkMerge 7 3; mkMerge 8 7; mkMerge 9 8; mkMerge 10 9] =
    Some [[7; 6; 5; 4]; [3; 2; 1; 0]] /\
  forall f x, f ∈ [[7; 6; 5; 4]; [3; 2; 1; 0]] -> x ∈ f -> 0 <= x < 10 + 1.
Proof.
  split; [exact Interpret_two_groups|].
  exact (Interpret_flags_indices _ _ Interpret_two_groups).
Defined.

Lemma Cluster_flagged_NoDup_witness :
  exists merges flagged,
    Cluster two_groups = Some merges /\
    Interpret merges = Some flagged /\
    flagged = [[7; 6; 5; 4]; [3; 2; 1; 0]] /\
    Forall (fun f : list Z => NoDup f) flagged.
Proof.
  eexists _, _. split; [exact Cluster_two_groups|].
  split; [exact Interpret_two_groups|]. split; [reflexivity|].
  exact (proj1 (Cluster_flagged_NoDup _ _ _ Cluster_two_groups Interpret_two_groups)).
Defined.

(** ** The friends data of [lj_cluster] *)

Lemma substring_all s : String.substring 0 (String.length s) s = s.
Proof. induction s as [|c s IH]; simpl; [done|]. by rewrite IH. Qed.

(** The test and the slicing of [ljGet], by cases on the line. *)
Lemma ljGet_line_cases direction line :
  ljGet_line direction line =
  match line with
  | String c (String _ (String c2 rest)) =>
      if Ascii.eqb c direction then Some (String c2 rest) else None
  | _ => None
  end.
Proof.
  unfold ljGet_line. destruct line as [|c [|c1 [|c2 rest]]]; try done.
  simpl String.length. simpl String.get.
  replace (S (S (S (String.length rest))) - 2)%nat with (S (String.length rest)) by lia.
  simpl String.substring. rewrite substring_all. simpl.
  destruct (Ascii.eqb_spec c direction) as [->|Hne].
  - by rewrite bool_decide_true.
  - rewrite bool_decide_false; [done|]. by intros [= ?].
Qed.

Lemma split_lines_no_newline s line :
  line ∈ split_lines s -> has_byte newline line = false.
Proof.
  revert line. induction s as [|c s IH]; intros line; simpl.
  - by intros ->%list_elem_of_singleton.
  - destruct (Ascii.eqb c newline) eqn:Hc.
    + intros [->|?]%elem_of_cons; [done|by apply IH].
    + destruct (split_lines s) as [|l ls]; simpl.
      * intros ->%list_elem_of_singleton. simpl. by rewrite Hc.
      * intros [->|?]%elem_of_cons.
        -- simpl. rewrite Hc. apply IH, list_elem_of_here.
        -- apply IH. by apply list_elem_of_further.
Qed.

(** X15.  What [ljGet] extracts from a body: every name it returns is the
    rest of a line after its first two bytes, so it is never empty and never
    holds a newline. *)
Theorem ljGet_lines_names body direction name :
  name ∈ ljGet_lines body direction ->
  name ≠ EmptyString /\ has_byte newline name = false /\
  exists c, String direction (String c name) ∈ split_lines body.
Proof.
  unfold ljGet_lines. rewrite list_elem_of_omap.
  intros (line & Hline & Hname). rewrite ljGet_line_cases in Hname.
  destruct line as [|c [|c1 [|c2 rest]]]; try done.
  destruct (Ascii.eqb_spec c direction) as [->|?]; [|done].
  injection Hname as <-. split; [done|].
  pose proof (split_lines_no_newline _ _ Hline) as Hnl. simpl in Hnl.
  apply orb_false_iff in Hnl as [_ Hnl]. apply orb_false_iff in Hnl as [_ Hnl].
  split; [done|]. by exists c1.
Qed.

Lemma ljGet_lines_names_witness :
  "bob"%string ∈ ljGet_lines (fdata_body [(byte_of ">", "bob"%string)]) (byte_of ">") /\
  "bob"%string ≠ EmptyString.
Proof.
  assert ("bob"%string ∈ ljGet_lines (fdata_body [(byte_of ">", "bob"%string)])
                                     (byte_of ">")) as H.
  { vm_compute. apply list_elem_of_here. }
  split; [exact H|]. exact (proj1 (ljGet_lines_names _ _ _ H)).
Defined.

Lemma split_lines_line line rest :
  has_byte newline line = false ->
  split_lines (line +:+ String newline rest) = line :: split_lines rest.
Proof.
  induction line as [|c line IH]; intros Hnl; simpl.
  - done.
  - simpl in Hnl. apply orb_false_iff in Hnl as [Hc Hnl].
    rewrite Hc. by rewrite IH.
Qed.

(** X16.  Reading back what was written: for a file of friends data lines
    (a direction byte, a space, a user name, a newline), [ljGet]'s loop
    returns, in order, the names of the lines of the direction asked for
    and nothing else. *)
Theorem ljGet_lines_round_trip entries direction :
  Forall fdata_entry entries ->
  ljGet_lines (fdata_body entries) direction =
  snd <$> filter (fun entry => entry.1 = direction) entries.
Proof.
  unfold ljGet_lines. induction 1 as [|[d name] entries (Hd & Hne & Hnl) _ IH].
  { done. }
  cbn [fdata_body foldr]. fold (fdata_body entries).
  rewrite split_lines_line.
  2: { unfold fdata_line. simpl. simpl in Hd, Hnl. rewrite Hnl.
       destruct (Ascii.eqb_spec d newline); done. }
  cbn [omap list_omap]. fold (omap (ljGet_line direction) (split_lines (fdata_body entries))).
  rewrite IH, filter_cons, ljGet_line_cases. unfold fdata_line. simpl in *.
  destruct name as [|c2 rest]; [done|]. simpl.
  destruct (Ascii.eqb_spec d direction) as [->|Hdd].
  - by rewrite decide_True.
  - by rewrite decide_False.
Qed.

Lemma ljGet_lines_round_trip_witness :
  ljGet_lines
    (fdata_body [(byte_of ">", "bob"%string); (byte_of "<", "eve"%string);
                 (byte_of ">", "al"%string)])
    (byte_of ">") = ["bob"%string; "al"%string].
Proof.
  apply (ljGet_lines_round_trip
           [(byte_of ">", "bob"%string); (byte_of "<", "eve"%string);
            (byte_of ">", "al"%string)] (byte_of ">")).
  repeat constructor; vm_compute; discriminate.
Defined.

(** X17.  The cache of [ljGet]: a file that can be read is never fetched
    again nor rewritten; a fetch that succeeds is stored under the name of
    the user before it is parsed, an error for a user without friends
    included; no other file changes; and once the file is there, every later
    [ljGet] for the user, in any direction, is answered from it, whatever
    the network does. *)
Theorem ljGet_caches w user direction w' r :
  ljGet w user direction = (w', r) ->
  (forall body, files w !! user = Some body ->
     w' = w /\ r = ljGet_result body direction) /\
  (forall other, other ≠ user -> files w' !! other = files w !! other) /\
  (r ≠ inr ErrGet -> r ≠ inr ErrWrite ->
   exists body,
     files w' !! user = Some body /\ r = ljGet_result body direction /\
     forall w2 direction2,
       files w2 !! user = Some body ->
       ljGet w2 user direction2 = (w2, ljGet_result body direction2)).
Proof.
  unfold ljGet. intros H.
  assert (forall body w2 direction2,
            files w2 !! user = Some body ->
            match files w2 !! user with
            | Some body => (w2, ljGet_result body direction2)
            | None =>
                match web w2 (ljGetUrl +:+ user) with
                | Some body =>
                    if can_write w2 user
                    then ({| files := <[user := body]> (files w2);
                             web := web w2; can_write := can_write w2 |},
                          ljGet_result body direction2)
                    else (w2, inr ErrWrite)
                | None => (w2, inr ErrGet)
                end
            end = (w2, ljGet_result body direction2)) as Hcached.
  { intros body w2 d2 ->. done. }
  destruct (files w !! user) as [body|] eqn:Hf.
  - injection H as <- <-. split; [by intros ? [= <-]|]. split; [done|].
    intros _ _. exists body. eauto.
  - split; [done|].
    destruct (web w (ljGetUrl +:+ user)) as [body|].
    + destruct (can_write w user).
      * injection H as <- <-. simpl. split.
        -- intros other Hne. by rewrite lookup_insert_ne.
        -- intros _ _. exists body. rewrite lookup_insert_eq. eauto.
      * injection H as <- <-. split; [done|]. done.
    + injection H as <- <-. split; [done|]. done.
Qed.

Lemma ljGet_caches_witness :
  exists w' body,
    ljGet (mkWorld ∅ (fun _ => Some (fdata_body [(byte_of ">", "bob"%string)]))
                   (fun _ => true)) "al" (byte_of ">") = (w', inl ["bob"%string]) /\
    files w' !! "al"%string = Some body /\
    ljGet w' "al" (byte_of "<") = (w', ljGet_result body (byte_of "<")).
Proof.
  destruct (ljGet (mkWorld ∅ (fun _ => Some (fdata_body [(byte_of ">", "bob"%string)]))
                           (fun _ => true)) "al" (byte_of ">")) as [w' r] eqn:H.
  assert (r = inl ["bob"%string]) as -> by (vm_compute in H; congruence).
  destruct (ljGet_caches _ _ _ _ _ H) as (_ & _ & Hc).
  destruct Hc as (body & Hbody & _ & Hlater); [done|done|].
  exists w', body. split; [reflexivity|]. split; [exact Hbody|].
  exact (Hlater w' _ Hbody).
Defined.

(** ** The pipeline of [main] *)

Lemma collect_done inituser fdata : forall w names vecs,
  filter (fun user => user ≠ inituser) fdata = [] ->
  collect w inituser fdata names vecs = (w, inl (names, vecs)).
Proof.
  induction fdata as [|user fdata IH]; intros w names vecs Hf; cbn [collect]; [done|].
  rewrite filter_cons in Hf. destruct (decide (user ≠ inituser)); [done|].
  rewrite bool_decide_false by done. by apply IH.
Qed.

Lemma collect_inl inituser fdata : forall w names vecs w' names' vecs',
  collect w inituser fdata names vecs = (w', inl (names', vecs')) ->
  names' = names ++ filter (fun user => user ≠ inituser) fdata /\
  len vecs' = len vecs + len (filter (fun user => user ≠ inituser) fdata) /\
  (Forall allocated vecs -> Forall allocated vecs').
Proof.
  induction fdata as [|user fdata IH]; intros w names vecs w' names' vecs';
    cbn [collect].
  { intros [= <- <- <-]. rewrite app_nil_r. split; [done|]. split; [|done].
    unfold len. simpl. lia. }
  rewrite filter_cons. destruct (decide (user ≠ inituser)) as [Hne|Heq].
  - rewrite bool_decide_true by done.
    destruct (ljGet w user (byte_of "<")) as [w1 [friends|e]]; [|by intros [=]].
    intros (-> & Hlen & Hall)%IH. split; [by rewrite <- app_assoc|]. split.
    + rewrite Hlen, len_app. unfold len. simpl. lia.
    + intros Hv. apply Hall. apply Forall_app. split; [done|].
      apply Forall_singleton, NewVec_allocated.
  - rewrite bool_decide_false by done. apply IH.
Qed.

Lemma print_users_Some names cluster :
  Forall (fun x => 0 <= x < len names) cluster -> is_Some (print_users names cluster).
Proof.
  induction 1 as [|x cluster Hx _ [rest IH]]; simpl; [eauto|].
  destruct (index_is_Some names x Hx) as [name ->]. rewrite IH. simpl. eauto.
Qed.

Lemma print_clusters_Some names clusters :
  Forall (Forall (fun x => 0 <= x < len names)) clusters ->
  is_Some (print_clusters names clusters).
Proof.
  induction 1 as [|c clusters Hc _ [rest IH]]; simpl; [eauto|].
  destruct (print_users_Some names c Hc) as [users ->]. rewrite IH. simpl. eauto.
Qed.

(** What [main] does once the friends are collected. *)
Lemma main_pipeline names vecs :
  len names = len vecs -> Forall allocated vecs -> 1 <= len vecs ->
  exists merges clusters out,
    Cluster vecs = Some merges /\ Interpret merges = Some clusters /\
    print_clusters names clusters = Some out /\
    (len vecs < 11 -> clusters = [] /\ out = EmptyString).
Proof.
  intros Hlen Halloc Hn.
  destruct (Cluster_total vecs Halloc Hn) as [merges Hc].
  pose proof (Cluster_wf_merges _ _ Hc) as Hwf.
  pose proof (Cluster_merges _ _ Hc) as (Hm & _).
  pose proof (Interpret_refines merges) as Hi. rewrite decide_True in Hi by done.
  destruct (print_clusters_Some names (Interpret_spec merges)) as [out Hout].
  { apply Forall_forall. intros f Hf. apply Forall_forall. intros x Hx.
    pose proof (Interpret_flags_indices_lemma _ _ Hi f x Hf Hx). lia. }
  exists merges, (Interpret_spec merges), out. repeat (split; [done|]).
  intros Hsmall. rewrite Interpret_spec_small in * by lia.
  split; [done|]. simpl in Hout. by injection Hout as <-.
Qed.

(** X18.  A run of [lj_cluster] ends in a panic exactly when the friends
    list of the user could be read and holds no one but the user: [Cluster]
    is then called on the empty slice.  In every other case the run ends in
    [log.Fatal] or prints its clusters; the names it looks up are always
    within the slice of names. *)
Theorem main_panics_without_friends w inituser w' o :
  main w inituser = (w', o) ->
  (o = Panic <->
   exists w1 fdata,
     ljGet w inituser (byte_of ">") = (w1, inl fdata) /\
     Forall (fun user => user = inituser) fdata).
Proof.
  unfold main. destruct (ljGet w inituser (byte_of ">")) as [w1 [fdata|e]] eqn:Hget.
  2: { intros [= <- <-]. split; [done|]. by intros (? & ? & [= ? ?] & _). }
  destruct (decide (filter (fun user => user ≠ inituser) fdata = [])) as [Hnil|Hcons].
  - rewrite collect_done by done. intros [= <- <-].
    change (Cluster []) with (@None (list Merge)). split; [|done].
    intros _. exists w1, fdata. split; [done|].
    apply Forall_forall. intros user Hin.
    destruct (decide (user = inituser)) as [|Hne]; [done|].
    assert (user ∈ filter (fun user => user ≠ inituser) fdata) as Hf
      by (by apply list_elem_of_filter).
    rewrite Hnil in Hf. by apply elem_of_nil in Hf.
  - destruct (collect w1 inituser fdata [] []) as [w2 [[names vecs]|e]] eqn:Hcol.
    2: { intros [= <- <-]. split; [done|].
         intros (? & ? & [= <- <-] & Hall). exfalso. apply Hcons.
         clear Hcol Hcons Hget. induction Hall as [|u l Hu _ IH]; [done|].
         by rewrite filter_cons, decide_False by (by intros ?). }
    destruct (collect_inl _ _ _ _ _ _ _ _ Hcol) as (Hnames & Hlen & Halloc).
    simpl in Hnames. subst names.
    destruct (main_pipeline (filter (fun user => user ≠ inituser) fdata) vecs)
      as (merges & clusters & out & -> & -> & -> & _).
    + rewrite Hlen. unfold len. simpl. lia.
    + by apply Halloc.
    + rewrite Hlen. unfold len. simpl.
      destruct (filter _ fdata); [done|]. simpl. lia.
    + intros [= <- <-]. split; [done|].
      intros (? & ? & [= <- <-] & Hall). exfalso. apply Hcons.
      clear -Hall. induction Hall as [|u l Hu _ IH]; [done|].
      by rewrite filter_cons, decide_False by (by intros ?).
Qed.

Lemma main_panics_without_friends_witness :
  main (mkWorld {[ "al"%string := fdata_body [(byte_of ">", "al"%string)] ]}
                (fun _ => None) (fun _ => true)) "al" =
    (mkWorld {[ "al"%string := fdata_body [(byte_of ">", "al"%string)] ]}
             (fun _ => None) (fun _ => true), Panic) /\
  exists w1 fdata,
    ljGet (mkWorld {[ "al"%string := fdata_body [(byte_of ">", "al"%string)] ]}
                   (fun _ => None) (fun _ => true)) "al" (byte_of ">") =
      (w1, inl fdata) /\
    Forall (fun user => user = "al"%string) fdata.
Proof.
  assert (main (mkWorld {[ "al"%string := fdata_body [(byte_of ">", "al"%string)] ]}
                        (fun _ => None) (fun _ => true)) "al" =
          (mkWorld {[ "al"%string := fdata_body [(byte_of ">", "al"%string)] ]}
                   (fun _ => None) (fun _ => true), Panic)) as H
    by (vm_compute; reflexivity).
  split; [exact H|].
  exact (proj1 (main_panics_without_friends _ _ _ _ H) eq_refl).
Defined.

(** X19.  A user with fewer than eleven friends gets no output: when the
    friends list holds between one and ten names other than the user's own,
    and the data of each of them can be obtained, [main] prints nothing. *)
Theorem main_prints_nothing_below_eleven w inituser w1 fdata w' o :
  ljGet w inituser (byte_of ">") = (w1, inl fdata) ->
  1 <= len (filter (fun user => user ≠ inituser) fdata) < 11 ->
  main w inituser = (w', o) ->
  o = Printed EmptyString \/ exists e, o = Fatal e.
Proof.
  intros Hget Hn. unfold main. rewrite Hget.
  destruct (collect w1 inituser fdata [] []) as [w2 [[names vecs]|e]] eqn:Hcol.
  2: { intros [= <- <-]. right. eauto. }
  destruct (collect_inl _ _ _ _ _ _ _ _ Hcol) as (Hnames & Hlen & Halloc).
  simpl in Hnames. subst names.
  assert (len vecs = len (filter (fun user => user ≠ inituser) fdata)) as Hlv.
  { rewrite Hlen. unfold len. simpl. lia. }
  destruct (main_pipeline (filter (fun user => user ≠ inituser) fdata) vecs)
    as (merges & clusters & out & -> & -> & -> & Hsmall); [lia|by apply Halloc|lia|].
  destruct Hsmall as [_ ->]; [lia|]. intros [= <- <-]. by left.
Qed.

Lemma main_prints_nothing_below_eleven_witness :
  main two_users "al" = (two_users, Printed EmptyString) /\
  (Printed EmptyString = Printed EmptyString \/
   exists e, Printed EmptyString = Fatal e).
Proof.
  assert (main two_users "al" = (two_users, Printed EmptyString)) as H
    by (vm_compute; reflexivity).
  split; [exact H|].
  apply (main_prints_nothing_below_eleven two_users "al" two_users ["bob"%string]
           two_users (Printed EmptyString)).
  - vm_compute. reflexivity.
  - vm_compute. split; discriminate || reflexivity.
  - exact H.
Defined.

(** ** The dendrogram is one tree *)

Lemma concat_perm {A} (l l' : list (list A)) : l ≡ₚ l' -> concat l ≡ₚ concat l'.
Proof.
  induction 1 as [|x l l' _ IH|x y l|l1 l2 l3 _ IH1 _ IH2]; simpl.
  - done.
  - by rewrite IH.
  - rewrite !app_assoc. apply Permutation_app_tail, Permutation_app_comm.
  - by rewrite IH1.
Qed.

Lemma concat_singleton_members (L : list Z) : concat (singleton_members <$> L) = L.
Proof.
  induction L as [|x L IH]; [done|].
  rewrite fmap_cons. cbn [concat]. by rewrite IH.
Qed.

Lemma members_before_all_snoc merges m :
  members_before (merges ++ [m]) (length (merges ++ [m])) =
  absorb (members_before merges (length merges)) m.
Proof. unfold members_before. by rewrite !firstn_all, foldl_snoc. Qed.

Lemma fmap_absorb_ne members m (L : list Z) :
  Left m ∉ L -> absorb members m <$> L = members <$> L.
Proof.
  intros Hl. apply list_fmap_ext. intros k x Hx. unfold absorb.
  rewrite decide_False; [done|]. intros ->. apply Hl.
  by eapply list_elem_of_lookup_2.
Qed.

(** X20.  The merges of [Cluster] make one tree over all the input: when
    [Interpret] has applied them all, the member list of the survivor holds
    every index of the input exactly once. *)
Theorem Cluster_members_of_survivor vecs merges :
  Cluster vecs = Some merges ->
  exists survivor,
    active (len vecs) merges = [survivor] /\
    members_before merges (length merges) survivor ≡ₚ seqZ 0 (len vecs).
Proof.
  intros (Hn & st & Hst & <- & Hinv)%Cluster_boundary.
  assert (concat (members_before (c_merges st) (length (c_merges st))
                    <$> active (len vecs) (c_merges st)) ≡ₚ seqZ 0 (len vecs)) as Hall.
  { revert Hst.
    apply (boundary_ind vecs (fun _ st =>
             concat (members_before (c_merges st) (length (c_merges st))
                       <$> active (len vecs) (c_merges st)) ≡ₚ seqZ 0 (len vecs)));
      [| |lia].
    - intros _. cbn [c_merges]. rewrite active_nil.
      change (members_before [] (length [])) with singleton_members.
      by rewrite concat_singleton_members.
    - intros r st0 m a b a' _ _ IH _ _ _ _ Hi Hj Hlt. unfold next. cbn [c_merges].
      rewrite members_before_all_snoc, active_snoc. cbn [Left Right].
      set (members := members_before (c_merges st0) (length (c_merges st0))) in *.
      set (L := active (len vecs) (c_merges st0)) in *.
      set (L' := filter (fun y => y ≠ sim_j m) L).
      set (L'' := filter (fun y => y ≠ sim_i m) L').
      assert (L ≡ₚ sim_j m :: L') as HL
        by (apply filter_ne_perm; [apply active_NoDup|done]).
      assert (L' ≡ₚ sim_i m :: L'') as HL'.
      { apply filter_ne_perm; [apply NoDup_filter, active_NoDup|].
        apply list_elem_of_filter. split; [lia|done]. }
      rewrite <- IH. rewrite (concat_perm _ _ (fmap_Permutation members _ _ HL)).
      rewrite (concat_perm _ _ (fmap_Permutation (absorb members _) _ _ HL')).
      rewrite !fmap_cons. cbn [concat].
      rewrite (concat_perm _ _ (fmap_Permutation members _ _ HL')).
      rewrite fmap_cons. cbn [concat].
      rewrite fmap_absorb_ne.
      2: { simpl. intros [? _]%list_elem_of_filter. done. }
      unfold absorb at 1. rewrite decide_True by done. cbn [Left Right].
      rewrite <- app_assoc. rewrite (app_assoc (members (sim_j m))).
      rewrite (Permutation_app_comm (members (sim_j m)) (members (sim_i m))).
      by rewrite <- app_assoc. }
  destruct Hinv as [_ _ Hact _ _ _].
  destruct (active (len vecs) (c_merges st)) as [|s [|? ?]] eqn:HL;
    unfold len in Hact; simpl in Hact; try lia.
  exists s. split; [done|]. simpl in Hall. by rewrite app_nil_r in Hall.
Qed.

Lemma Cluster_members_of_survivor_witness :
  exists survivor,
    active (len two_groups)
      [mkMerge 1 0; mkMerge 2 1; mkMerge 3 2; mkMerge 5 4; mkMerge 6 5;
       mkMerge 7 6; mkMerge 7 3; mkMerge 8 7; mkMerge 9 8; mkMerge 10 9] =
      [survivor] /\
    survivor = 10.
Proof.
  destruct (Cluster_members_of_survivor _ _ Cluster_two_groups) as (s & Hs & _).
  exists s. split; [exact Hs|]. vm_compute in Hs. congruence.
Defined.

(** ** Token lists and vectors *)





